(** * smart-router.js: the repository router of the issue form

    A shallow embedding of [.github/ISSUE_TEMPLATE/assets/smart-router.js]
    and the properties its specification states about it.

    - JavaScript numbers are IEEE 754 binary64 values: the primitive [float]
      of Rocq, whose operations round as the JavaScript ones do.
    - Strings are ASCII text ([string]); [toLowerCase], [\w] and [\s] are the
      ASCII fragments of the JavaScript ones.
    - Everything the class does to the outside (Octokit requests, [fetch],
      [console.error]) and every assignment into [this.repositories] is an
      [Event] appended to a history; the outside answers a request as a
      function of the history so far ([World]).
    - [async] methods run to completion one after the other (the code awaits
      every promise it creates), so a method is a state transformer that ends
      in a value or in a thrown exception. *)

From Stdlib Require Import ZArith List Floats Lia Bool String Ascii.
From Stdlib Require Import Permutation Sorted Setoid.
Import ListNotations.

#[local] Set Warnings "-inexact-float,-register-all".

(** ** The JavaScript runtime pieces the file uses *)

Module JS.

(** *** Numbers *)

Local Open Scope float_scope.

(** [ToBoolean] of a number: [NaN], [+0] and [-0] are falsy. *)
Definition ToBoolean (x : float) : bool := negb (is_nan x || is_zero x).

(** [x || y] on numbers. *)
Definition logical_or (x y : float) : float := if ToBoolean x then x else y.

(** [a[i]] used as a number: an index past the end reads [undefined], which
    arithmetic converts to [NaN]. *)
Definition at_index (a : list float) (i : nat) : float := nth i a nan.

(** *** JSON values *)

Inductive json :=
| JNull
| JBool (b : bool)
| JNumber (x : float)
| JString (s : string)
| JArray (l : list json)
| JObject (members : list (string * json)).

(** [undefined] is [None]. *)
Definition value := option json.

Definition truthy (v : value) : bool :=
  match v with
  | None | Some JNull => false
  | Some (JBool b) => b
  | Some (JNumber x) => ToBoolean x
  | Some (JString s) => negb (String.eqb s "")
  | Some (JArray _) | Some (JObject _) => true
  end.

(** [v || d] where [d] is a string literal. *)
Definition or_else (v : value) (d : json) : json :=
  match v with
  | Some j => if truthy v then j else d
  | None => d
  end.

Fixpoint member (k : string) (ms : list (string * json)) : value :=
  match ms with
  | [] => None
  | (k', v) :: ms' => if String.eqb k k' then Some v else member k ms'
  end.

(** [e?.message]: [undefined] when [e] is [null] or [undefined]; the member
    of an object; [undefined] on a boolean, number, string or array, which
    have no such property. *)
Definition optional_message (e : value) : value :=
  match e with
  | Some (JObject ms) => member "message" ms
  | _ => None
  end.

(** *** Exceptions *)

Inductive exn :=
| Error (message : json)       (* new Error(m): its message is String(m), m itself for a string *)
| TypeError (message : string) (* a property read on null or undefined *)
| SyntaxError (message : string) (* JSON that does not parse *)
| Rejection (reason : string). (* what a failed request rejects with *)

(** The [TypeError] of reading [property] of [null] or [undefined]. *)
Definition cannot_read (base property : string) : exn :=
  TypeError ("Cannot read properties of " ++ base ++ " (reading '" ++ property ++ "')").

(** *** Strings *)

Local Open Scope nat_scope.

Definition code (c : ascii) : nat := nat_of_ascii c.

Definition between (lo hi : nat) (c : ascii) : bool :=
  (lo <=? code c) && (code c <=? hi).

Definition is_upper : ascii -> bool := between 65 90.
Definition is_lower : ascii -> bool := between 97 122.
Definition is_digit : ascii -> bool := between 48 57.

(** [\w] is [[A-Za-z0-9_]]. *)
Definition is_word (c : ascii) : bool :=
  is_upper c || is_lower c || is_digit c || (code c =? 95).

(** [\s] on ASCII: tab, line feed, vertical tab, form feed, carriage return
    and space. *)
Definition is_space (c : ascii) : bool :=
  between 9 13 c || (code c =? 32).

Fixpoint map_chars (f : ascii -> ascii) (s : string) : string :=
  match s with
  | EmptyString => EmptyString
  | String c s' => String (f c) (map_chars f s')
  end.

Definition lower_char (c : ascii) : ascii :=
  if is_upper c then ascii_of_nat (code c + 32) else c.

Definition toLowerCase : string -> string := map_chars lower_char.

(** [s.replace(/[^\w\s]/g, ' ')] *)
Definition replace_non_word_non_space : string -> string :=
  map_chars (fun c => if is_word c || is_space c then c else " "%char).

(** [s.split(/\s+/)]: the pieces between the maximal runs of whitespace.
    A run at the start or at the end leaves an empty piece there, and the
    empty string splits into one empty piece. [cur] is the piece being read
    and [in_sep] says that the last character read was whitespace. *)
Fixpoint split_go (s : string) (cur : string) (in_sep : bool) : list string :=
  match s with
  | EmptyString => [cur]
  | String c s' =>
      if is_space c then
        if in_sep then split_go s' cur true else cur :: split_go s' EmptyString true
      else split_go s' (cur ++ String c EmptyString)%string false
  end.

Definition split_whitespace (s : string) : list string := split_go s EmptyString false.

(** [v || d] on a nullable string: [null] and the empty string are falsy. *)
Definition string_or (v : option string) (d : string) : string :=
  match v with
  | Some s => if String.eqb s EmptyString then d else s
  | None => d
  end.

(** A value inside a template literal: [undefined] prints as itself. *)
Definition template (v : option string) : string :=
  match v with
  | Some s => s
  | None => "undefined"
  end.

(** [a.join(sep)]: [null] and [undefined] elements ([None]) join as the
    empty string. *)
Definition join_item (o : option string) : string :=
  match o with Some s => s | None => EmptyString end.

Fixpoint join (sep : string) (a : list (option string)) : string :=
  match a with
  | [] => EmptyString
  | [x] => join_item x
  | x :: a' => (join_item x ++ sep ++ join sep a')%string
  end.

(** *** Set: insertion-ordered, without duplicates *)

Definition Set_add (s : list string) (x : string) : list string :=
  if in_dec string_dec x s then s else s ++ [x].

Definition Array_from (s : list string) : list string := s.

(** *** Objects used as maps

    The own properties of an ordinary object in the order [Object.entries]
    lists them. The keys stored here are repository full names
    ([owner/name]), which are neither array indices nor [__proto__], so the
    order is the order of first assignment. *)

Section Object.
Context {V : Type}.

Definition object := list (string * V).

Fixpoint get (o : object) (k : string) : option V :=
  match o with
  | [] => None
  | (k', v) :: o' => if String.eqb k k' then Some v else get o' k
  end.

(** [o[k] = v]: an existing key keeps its place, a new one goes last. *)
Fixpoint set (o : object) (k : string) (v : V) : object :=
  match o with
  | [] => [(k, v)]
  | (k', v') :: o' =>
      if String.eqb k k' then (k', v) :: o' else (k', v') :: set o' k v
  end.

Definition Object_entries (o : object) : list (string * V) := o.

Definition keys (o : object) : list string := map fst o.
End Object.

Arguments object : clear implicits.

(** *** Array.prototype.sort

    The sort is stable (ECMAScript 2019 and later) and reads the comparator
    as the standard does: [comparefn a b > 0] puts [b] before [a]; a
    negative, zero or [NaN] result leaves [a] before [b]. On a consistent
    comparator every conforming engine returns the same array; it is
    computed here by stable insertion. *)

Section Sort.
Context {A : Type}.
Variable comparefn : A -> A -> float.

Fixpoint insert (x : A) (l : list A) : list A :=
  match l with
  | [] => [x]
  | y :: l' =>
      if (0 <? comparefn x y)%float then y :: insert x l' else x :: y :: l'
  end.

Definition sort (l : list A) : list A := fold_right insert [] l.
End Sort.

End JS.

(** ** The class [SmartRouter] *)

Module SmartRouter.
Import JS.

(** *** Data *)

(** A repository as the source-control API lists it: the members the file
    reads. [description] is nullable and [topics] may be missing. *)
Record Repo := {
  name : string;
  full_name : string;
  repo_description : option string;
  topics : option (list string)
}.

Record Org := { login : string }.

(** The value stored under a repository's full name. *)
Record RepositoryRecord := {
  description : string;
  keywords : list string;
  embedding : list float
}.

(** The body of the embeddings request, before [JSON.stringify]. *)
Record EmbeddingsInput := { model : string; input : string }.

Record RequestInit := {
  method : string;
  headers : list (string * string);
  body : EmbeddingsInput
}.

(** One element of the [data] array of an embeddings response. *)
Record EmbeddingObject := { object_embedding : list float }.

(** What [response.json()] resolves to, as far as the file reads it.
    [error] is kept as raw JSON, since the code probes it dynamically;
    [data] has the provider's schema (an array of objects that carry a
    numeric [embedding] array). A member that is missing is [None]; a body
    that is a number, a string, a boolean or an array has neither member. *)
Inductive Body :=
| BodyNull
| BodyMembers (error : value) (data : option (list EmbeddingObject)).

Record Response := {
  ok : bool;
  json_promise : exn + Body   (* response.json(): rejects on a body that is not JSON *)
}.

Inductive Call :=
| orgs_listForAuthenticatedUser
| repos_listForAuthenticatedUser
| repos_listForOrg (org : string) (per_page : nat)
| fetch (url : string) (init : RequestInit).

Inductive Event :=
| Request (c : Call)
| Assign (key : string) (r : RepositoryRecord)
| ConsoleError (label : string) (e : exn).

(** The outside. [process_env] is [process.env] once [dotenv.config()] has
    run; each reply may depend on everything that happened before. *)
Record World := {
  process_env : string -> option string;
  reply_orgs : list Event -> exn + list Org;
  reply_user_repos : list Event -> exn + list Repo;
  reply_org_repos : list Event -> string -> nat -> exn + list Repo;
  reply_fetch : list Event -> string -> RequestInit -> exn + Response
}.

Record Octokit := { auth : option string }.

Record SmartRouter := {
  octokit : Octokit;
  repositories : object RepositoryRecord;
  voyageHeaders : list (string * string)
}.

Record State := {
  this : SmartRouter;
  events : list Event
}.

(** *** Control: values, exceptions and the state they leave behind *)

Inductive outcome (A : Type) :=
| Ok (a : A)
| Throw (e : exn).

Arguments Ok {A} a.
Arguments Throw {A} e.

Definition M (A : Type) : Type := State -> outcome A * State.

Definition ret {A} (a : A) : M A := fun st => (Ok a, st).

Definition throw {A} (e : exn) : M A := fun st => (Throw e, st).

Definition bind {A B} (m : M A) (k : A -> M B) : M B :=
  fun st =>
    match m st with
    | (Ok a, st') => k a st'
    | (Throw e, st') => (Throw e, st')
    end.

Notation "x <- m ;; k" := (bind m (fun x => k))
  (at level 61, m at next level, right associativity).
Notation "m ;;; k" := (bind m (fun _ => k))
  (at level 61, right associativity).

(** [try { body } catch (error) { handler }] *)
Definition try_catch {A} (body : M A) (handler : exn -> M A) : M A :=
  fun st =>
    match body st with
    | (Ok a, st') => (Ok a, st')
    | (Throw e, st') => handler e st'
    end.

(** [for (const x of xs) { body }] *)
Fixpoint for_of {A} (xs : list A) (body : A -> M unit) : M unit :=
  match xs with
  | [] => ret tt
  | x :: xs' => body x ;;; for_of xs' body
  end.

Definition emit (e : Event) : M unit :=
  fun st => (Ok tt, {| this := this st; events := events st ++ [e] |}).

Definition console_error (label : string) (e : exn) : M unit :=
  emit (ConsoleError label e).

(** [await p] for a promise settled by the outside. *)
Definition await {A} (p : exn + A) : M A :=
  match p with
  | inl e => throw e
  | inr a => ret a
  end.

(** A request: it is recorded, then answered from the history before it. *)
Definition request {A} (c : Call) (reply : list Event -> exn + A) : M A :=
  fun st => (emit (Request c) ;;; await (reply (events st))) st.

(** Reading [this]. *)
Definition get_this : M SmartRouter :=
  fun st => (Ok (this st), st).

(** [this.repositories[key] = r] *)
Definition assign_repository (key : string) (r : RepositoryRecord) : M unit :=
  fun st =>
    (Ok tt,
     {| this := {| octokit := octokit (this st);
                   repositories := set (repositories (this st)) key r;
                   voyageHeaders := voyageHeaders (this st) |};
        events := events st ++ [Assign key r] |}).

Section Methods.
Variable world : World.

Local Open Scope string_scope.

(** [!process.env.X]: unset, or set to the empty string. *)
Definition missing (v : option string) : bool :=
  match v with
  | None => true
  | Some s => String.eqb s ""
  end.

Definition configuration_error : exn :=
  Error (JString "Missing required environment variables: GITHUB_TOKEN and/or VOYAGE_API_KEY").

(** [new SmartRouter()], given the history so far. *)
Definition constructor (history : list Event) : outcome SmartRouter * list Event :=
  if missing (process_env world "GITHUB_TOKEN") || missing (process_env world "VOYAGE_API_KEY")
  then (Throw configuration_error, history)
  else
    (Ok {| octokit := {| auth := process_env world "GITHUB_TOKEN" |};
           repositories := [];
           voyageHeaders :=
             [("Authorization", "Bearer " ++ template (process_env world "VOYAGE_API_KEY"));
              ("Content-Type", "application/json")] |},
     history).

Definition extractKeywords (repo : Repo) : list string :=
  let keywords : list string := [] in
  let keywords :=
    match topics repo with
    | Some ts => fold_left Set_add ts keywords
    | None => keywords
    end in
  let extractFrom := join " " [Some (name repo); repo_description repo] in
  let words :=
    filter (fun word => (2 <? String.length word)%nat)
      (split_whitespace (replace_non_word_non_space (toLowerCase extractFrom))) in
  let keywords := fold_left Set_add words keywords in
  Array_from keywords.

Definition embeddings_url : string := "https://api.voyageai.com/v1/embeddings".

Definition embeddings_request (headers : list (string * string)) (text : string) : RequestInit :=
  {| method := "POST";
     headers := headers;
     body := {| model := "voyage-01"; input := text |} |}.

(** [data.error?.message] *)
Definition error_message (data : Body) : M value :=
  match data with
  | BodyNull => throw (cannot_read "null" "error")
  | BodyMembers error _ => ret (optional_message error)
  end.

(** [data.data[0].embedding] *)
Definition first_embedding (data : Body) : M (list float) :=
  match data with
  | BodyNull => throw (cannot_read "null" "data")
  | BodyMembers _ None => throw (cannot_read "undefined" "0")
  | BodyMembers _ (Some []) => throw (cannot_read "undefined" "embedding")
  | BodyMembers _ (Some (first :: _)) => ret (object_embedding first)
  end.

Definition generic_failure : json := JString "Failed to create embedding".

Definition createEmbedding (text : string) : M (list float) :=
  try_catch
    (self <- get_this ;;
     let init := embeddings_request (voyageHeaders self) text in
     response <- request (fetch embeddings_url init)
                   (fun h => reply_fetch world h embeddings_url init) ;;
     data <- await (json_promise response) ;;
     if negb (ok response) then
       message <- error_message data ;;
       throw (Error (or_else message generic_failure))
     else first_embedding data)
    (fun error =>
       console_error "Error creating embedding:" error ;;;
       throw error).

Definition processRepositories (repos : list Repo) : M unit :=
  for_of repos (fun repo =>
    let keywords := extractKeywords repo in
    let description := string_or (repo_description repo) "" in
    embedding <- createEmbedding (description ++ " " ++ join " " (map Some keywords)) ;;
    assign_repository (full_name repo)
      {| description := description; keywords := keywords; embedding := embedding |}).

Definition fetchUserRepositories : M unit :=
  repos <- request repos_listForAuthenticatedUser (reply_user_repos world) ;;
  processRepositories repos.

Definition fetchOrgRepositories (orgName : string) : M unit :=
  repos <- request (repos_listForOrg orgName 100)
             (fun h => reply_org_repos world h orgName 100) ;;
  processRepositories repos.

Definition initialize : M unit :=
  try_catch
    (orgs <- request orgs_listForAuthenticatedUser (reply_orgs world) ;;
     fetchUserRepositories ;;;
     for_of orgs (fun org => fetchOrgRepositories (login org)))
    (fun error =>
       console_error "Error initializing SmartRouter:" error ;;;
       throw error).

Local Open Scope float_scope.

Definition calculateCosineSimilarity (embedding1 embedding2 : list float) : float :=
  let step (acc : float * float * float) (i : nat) :=
    let '(dotProduct, norm1, norm2) := acc in
    (dotProduct + at_index embedding1 i * at_index embedding2 i,
     norm1 + at_index embedding1 i * at_index embedding1 i,
     norm2 + at_index embedding2 i * at_index embedding2 i) in
  let '(dotProduct, norm1, norm2) :=
    fold_left step (seq 0 (List.length embedding1)) (0, 0, 0) in
  logical_or (dotProduct / (sqrt norm1 * sqrt norm2)) 0.

(** An element of the local array [matches]. *)
Record Match := { repo : string; similarity : float }.

Definition score (descriptionEmbedding : list float) (entry : string * RepositoryRecord) : Match :=
  {| repo := fst entry;
     similarity := calculateCosineSimilarity descriptionEmbedding (embedding (snd entry)) |}.

Definition by_similarity (a b : Match) : float := similarity b - similarity a.

Definition findMatches (description : string) : M (list string) :=
  descriptionEmbedding <- createEmbedding description ;;
  self <- get_this ;;
  let matches := map (score descriptionEmbedding) (Object_entries (repositories self)) in
  ret (map repo (sort by_similarity matches)).

(** The page-load handler, up to the point where it binds the input
    listener: [Some router] when the router is constructed and initialized,
    [None] when the handler caught an error and left the form as it was. *)
Definition onDOMContentLoaded (history : list Event) : option SmartRouter * list Event :=
  match constructor history with
  | (Throw error, h) =>
      (None, (h ++ [ConsoleError "Failed to initialize SmartRouter:" error])%list)
  | (Ok router, h) =>
      match initialize {| this := router; events := h |} with
      | (Ok _, st) => (Some (this st), events st)
      | (Throw error, st) =>
          (None, (events st ++ [ConsoleError "Failed to initialize SmartRouter:" error])%list)
      end
  end.

End Methods.

End SmartRouter.

(** ** The specification's own notions *)

Module Spec.
Import JS SmartRouter.

Local Open Scope string_scope.
Local Open Scope float_scope.

(** A vector every component of which is [+0] or [-0]. *)
Definition all_zero (a : list float) : Prop :=
  Forall (fun x => is_zero x = true) a.

(** The dot product, the magnitude and their quotient, each computed in
    binary64 from left to right. *)
Definition sum_products (a b : list float) (indices : list nat) (acc : float) : float :=
  fold_left (fun acc i => acc + at_index a i * at_index b i) indices acc.

Definition dot (a b : list float) : float :=
  sum_products a b (seq 0 (List.length a)) 0.

Definition magnitude (a : list float) : float := sqrt (dot a a).

Definition cosine (a b : list float) : float :=
  dot a b / (magnitude a * magnitude b).

(** Two results are the same number when they are identical or equal
    under [==]. *)
Definition same_number (x y : float) : Prop := x = y \/ (x =? y) = true.

(** The cosine rule as the specification words it, on vectors of one
    dimension: [0] when either vector is all-zero, the quotient
    otherwise. *)
Definition zero_or_quotient : Prop :=
  forall a b : list float,
    List.length a = List.length b ->
    ((all_zero a \/ all_zero b) ->
       calculateCosineSimilarity a b = 0 /\ is_nan (calculateCosineSimilarity a b) = false)
    /\ (~ (all_zero a \/ all_zero b) ->
        same_number (calculateCosineSimilarity a b) (cosine a b)).

(** Keyword extraction as the specification words it: the text is the name
    and the description joined by one space (a null description adds
    nothing), lowercased; every character that is not a word character
    becomes a space; the text is split on whitespace and the tokens longer
    than two characters are kept. *)
Definition spec_text (repo : Repo) : string :=
  (name repo ++ " " ++ match repo_description repo with Some d => d | None => "" end)%string.

Definition spec_tokens (text : string) : list string :=
  filter (fun token => (2 <? String.length token)%nat)
    (split_whitespace
       (map_chars (fun c => if is_word c then c else " "%char) (toLowerCase text))).

Definition spec_topics (repo : Repo) : list string :=
  match topics repo with Some ts => ts | None => [] end.

(** The repository of the specification's example. *)
Definition example_repo : Repo :=
  {| name := "My-Repo!";
     full_name := "octo/My-Repo!";
     repo_description := Some "A cool tool";
     topics := Some ["cli"; "go"] |}.

(** A number that is neither [NaN] nor [-0]: every similarity is one. *)
Definition canonical (x : float) : Prop :=
  Prim2SF x <> S754_nan /\ Prim2SF x <> S754_zero true.

(** Ranking. [order] lists positions of [entries] (its iteration order).
    An earlier position of the output has the strictly greater similarity,
    or the same similarity and the earlier place in the iteration order. *)
Definition no_entry : string * RepositoryRecord :=
  (EmptyString, {| description := EmptyString; keywords := []; embedding := [] |}).

Definition precedes (sim : nat -> float) (i j : nat) : Prop :=
  (sim j <? sim i) = true \/ (sim i = sim j /\ (i < j)%nat).

Definition ranked (entries : list (string * RepositoryRecord))
    (sim : RepositoryRecord -> float) (names : list string) : Prop :=
  exists order : list nat,
    Permutation order (seq 0 (List.length entries))
    /\ names = map (fun i => fst (nth i entries no_entry)) order
    /\ StronglySorted (precedes (fun i => sim (snd (nth i entries no_entry)))) order.

(** The similarity as [calculateCosineSimilarity] is specified to return
    it, as a number: [0] when a magnitude is zero, the quotient
    otherwise. *)
Definition cosine_as_stated (a b : list float) : float :=
  if is_zero (magnitude a) || is_zero (magnitude b) then 0 else cosine a b.

(** The same with the guard of the code: a quotient that is [NaN] or a
    zero counts as [0]. *)
Definition guarded_cosine (a b : list float) : float :=
  if is_nan (cosine a b) || is_zero (cosine a b) then 0 else cosine a b.

(** Every stored embedding has the dimension of the query. *)
Definition same_dimension (q : list float) (entries : list (string * RepositoryRecord)) : Prop :=
  Forall (fun entry => List.length (embedding (snd entry)) = List.length q) entries.

(** The ranking as the specification states it: by the cosine similarity
    of the stored embedding to the embedding of the input. *)
Definition ranked_by_cosine : Prop :=
  forall (w : World) (description : string) (st st1 : State) (q : list float)
         (names : list string),
    createEmbedding w description st = (Ok q, st1) ->
    findMatches w description st = (Ok names, st1) ->
    same_dimension q (Object_entries (repositories (this st))) ->
    ranked (Object_entries (repositories (this st)))
      (fun r => cosine_as_stated q (embedding r)) names.

(** Construction as the specification states it: it fails when a
    credential is absent and succeeds when both are present, in either case
    without touching the network. *)
Definition constructed_when_present : Prop :=
  forall (w : World) (history : list Event),
    ((process_env w "GITHUB_TOKEN" = None \/ process_env w "VOYAGE_API_KEY" = None) ->
       constructor w history = (Throw configuration_error, history))
    /\ (forall token key,
          process_env w "GITHUB_TOKEN" = Some token ->
          process_env w "VOYAGE_API_KEY" = Some key ->
          exists router, constructor w history = (Ok router, history)).

(** The message the provider sent with a response, if it sent one. *)
Definition provider_message (response : Response) : option json :=
  match json_promise response with
  | inr (BodyMembers error _) =>
      match optional_message error with
      | Some m => if truthy (Some m) then Some m else None
      | None => None
      end
  | _ => None
  end.

(** The failure of [createEmbedding] as the specification states it: on
    every response without success status the error carries the provider's
    message, or else the generic one. *)
Definition provider_or_generic_message : Prop :=
  forall (w : World) (text : string) (st : State) (response : Response),
    reply_fetch w (events st) embeddings_url
      (embeddings_request (voyageHeaders (this st)) text) = inr response ->
    ok response = false ->
    fst (createEmbedding w text st)
    = Throw (Error (match provider_message response with
                    | Some m => m
                    | None => generic_failure
                    end)).

End Spec.

(** ** Runs: what a method did to the outside and to the mapping *)

Module Trace.
Import JS SmartRouter.

Local Open Scope string_scope.
Local Open Scope list_scope.

(** What the reply to the embeddings request makes [createEmbedding] end
    in. *)
Definition settle (reply : exn + Response) : outcome (list float) :=
  match reply with
  | inl e => Throw e
  | inr response =>
      match json_promise response with
      | inl e => Throw e
      | inr BodyNull =>
          Throw (cannot_read "null" (if ok response then "data" else "error"))
      | inr (BodyMembers error data) =>
          if ok response then
            match data with
            | None => Throw (cannot_read "undefined" "0")
            | Some [] => Throw (cannot_read "undefined" "embedding")
            | Some (first :: _) => Ok (object_embedding first)
            end
          else Throw (Error (or_else (optional_message error) generic_failure))
      end
  end.

Definition rejection {A} (reply : exn + A) : option exn :=
  match reply with
  | inl e => Some e
  | inr _ => None
  end.

(** The exception that the reply to the request [c], sent after the
    history [h], raises in the method that sent it. *)
Definition failure (w : World) (h : list Event) (c : Call) : option exn :=
  match c with
  | orgs_listForAuthenticatedUser => rejection (reply_orgs w h)
  | repos_listForAuthenticatedUser => rejection (reply_user_repos w h)
  | repos_listForOrg org per_page => rejection (reply_org_repos w h org per_page)
  | fetch url init =>
      match settle (reply_fetch w h url init) with
      | Throw e => Some e
      | Ok _ => None
      end
  end.

Definition is_assign (ev : Event) : bool :=
  match ev with
  | Assign _ _ => true
  | _ => false
  end.

Definition is_console (ev : Event) : Prop :=
  match ev with
  | ConsoleError _ _ => True
  | _ => False
  end.

(** The mapping after the assignments of [evs], in their order. *)
Fixpoint replay (evs : list Event) (o : object RepositoryRecord) : object RepositoryRecord :=
  match evs with
  | [] => o
  | Assign key r :: evs' => replay evs' (set o key r)
  | _ :: evs' => replay evs' o
  end.

(** No request of [evs], sent after [h], fails. *)
Fixpoint all_succeed (w : World) (h evs : list Event) : Prop :=
  match evs with
  | [] => True
  | ev :: evs' =>
      match ev with
      | Request c => failure w h c = None
      | _ => True
      end
      /\ all_succeed w (h ++ [ev]) evs'
  end.

(** How a run that appended [evs] to the history [h] may end: in a value
    when every request succeeded; in the exception of a failed request,
    after which nothing but console output follows. *)
Definition ended {A} (w : World) (h evs : list Event) (out : outcome A) : Prop :=
  match out with
  | Ok _ => all_succeed w h evs
  | Throw e =>
      exists pre c logs,
        evs = pre ++ Request c :: logs
        /\ all_succeed w h pre
        /\ failure w (h ++ pre) c = Some e
        /\ Forall is_console logs
  end.

Definition run_spec {A} (w : World) (m : M A) : Prop :=
  forall st out st',
    m st = (out, st') ->
    exists evs,
      events st' = events st ++ evs
      /\ octokit (this st') = octokit (this st)
      /\ voyageHeaders (this st') = voyageHeaders (this st)
      /\ repositories (this st') = replay evs (repositories (this st))
      /\ ended w (events st) evs out.

End Trace.

(** ** Sample worlds and states *)

Module Examples.
Import JS SmartRouter Trace.

Local Open Scope string_scope.
Local Open Scope list_scope.

Definition embeddings_response (v : list float) : Response :=
  {| ok := true;
     json_promise := inr (BodyMembers None (Some [{| object_embedding := v |}])) |}.

(** Both credentials set; no organization, no repository; every text
    embeds as [1, 0]. *)
Definition quiet_world : World :=
  {| process_env := fun _ => Some "secret";
     reply_orgs := fun _ => inr [];
     reply_user_repos := fun _ => inr [];
     reply_org_repos := fun _ _ _ => inr [];
     reply_fetch := fun _ _ _ => inr (embeddings_response [1; 0]%float) |}.

(** The token is set to the empty string, as the line [GITHUB_TOKEN=] of
    an environment file does. *)
Definition empty_token_world : World :=
  {| process_env := fun k => if String.eqb k "GITHUB_TOKEN" then Some "" else Some "secret";
     reply_orgs := fun _ => inr [];
     reply_user_repos := fun _ => inr [];
     reply_org_repos := fun _ _ _ => inr [];
     reply_fetch := fun _ _ _ => inr (embeddings_response [1; 0]%float) |}.

(** A gateway answers the embeddings request with status 502 and an HTML
    page. *)
Definition bad_gateway : Response :=
  {| ok := false;
     json_promise := inl (SyntaxError "Unexpected token '<' is not valid JSON") |}.

Definition gateway_world : World :=
  {| process_env := fun _ => Some "secret";
     reply_orgs := fun _ => inr [];
     reply_user_repos := fun _ => inr [];
     reply_org_repos := fun _ _ _ => inr [];
     reply_fetch := fun _ _ _ => inr bad_gateway |}.

Definition repo_a : Repo :=
  {| name := "alpha"; full_name := "octo/alpha";
     repo_description := Some "First tool"; topics := Some ["cli"] |}.

Definition repo_b : Repo :=
  {| name := "beta"; full_name := "octo/beta";
     repo_description := None; topics := None |}.

(** Two repositories of the user; the network goes down once the first
    record is stored. *)
Definition flaky_world : World :=
  {| process_env := fun _ => Some "secret";
     reply_orgs := fun _ => inr [];
     reply_user_repos := fun _ => inr [repo_a; repo_b];
     reply_org_repos := fun _ _ _ => inr [];
     reply_fetch := fun h _ _ =>
       if existsb is_assign h then inl (Rejection "Failed to fetch")
       else inr (embeddings_response [1; 0]%float) |}.

Definition fresh_router : SmartRouter :=
  {| octokit := {| auth := Some "secret" |};
     repositories := [];
     voyageHeaders := [("Authorization", "Bearer secret"); ("Content-Type", "application/json")] |}.

Definition fresh : State := {| this := fresh_router; events := [] |}.

Definition stored (v : list float) : RepositoryRecord :=
  {| description := ""; keywords := []; embedding := v |}.

(** Four stored repositories; against [1, 0] the second and the fourth
    tie. *)
Definition loaded : State :=
  {| this :=
       {| octokit := {| auth := Some "secret" |};
          repositories :=
            [("octo/a", stored [0; 1]%float); ("octo/b", stored [1; 1]%float);
             ("octo/c", stored [2; 0]%float); ("octo/d", stored [1; 1]%float)];
          voyageHeaders := voyageHeaders fresh_router |};
     events := [] |}.

End Examples.

(** ** More sample worlds *)

Module Examples2.
Import JS SmartRouter Trace Examples.

Local Open Scope string_scope.
Local Open Scope list_scope.

(** The source-control API is unreachable. *)
Definition offline_world : World :=
  {| process_env := fun _ => Some "secret";
     reply_orgs := fun _ => inl (Rejection "getaddrinfo ENOTFOUND api.github.com");
     reply_user_repos := fun _ => inl (Rejection "getaddrinfo ENOTFOUND api.github.com");
     reply_org_repos := fun _ _ _ => inl (Rejection "getaddrinfo ENOTFOUND api.github.com");
     reply_fetch := fun _ _ _ => inr (embeddings_response [1; 0]%float) |}.

Definition repo_c : Repo :=
  {| name := "gamma"; full_name := "acme/gamma";
     repo_description := Some "Parser"; topics := Some [] |}.

(** One repository of the user and one organization with one repository;
    every request succeeds. *)
Definition busy_world : World :=
  {| process_env := fun _ => Some "secret";
     reply_orgs := fun _ => inr [{| login := "acme" |}];
     reply_user_repos := fun _ => inr [repo_a];
     reply_org_repos := fun _ _ _ => inr [repo_c];
     reply_fetch := fun _ _ _ => inr (embeddings_response [1; 0]%float) |}.

(** Every text embeds as [1e200, 0]: the squares of such components
    overflow. *)
Definition overflow_world : World :=
  {| process_env := fun _ => Some "secret";
     reply_orgs := fun _ => inr [];
     reply_user_repos := fun _ => inr [];
     reply_org_repos := fun _ _ _ => inr [];
     reply_fetch := fun _ _ _ => inr (embeddings_response [1e200; 0]%float) |}.

(** Two stored repositories: the first orthogonal to [1e200, 0], the
    second parallel to it. *)
Definition huge : State :=
  {| this :=
       {| octokit := {| auth := Some "secret" |};
          repositories :=
            [("octo/orth", stored [0; 1e200]%float); ("octo/par", stored [1e200; 0]%float)];
          voyageHeaders := voyageHeaders fresh_router |};
     events := [] |}.

(** The repository [repo_a] as an organization lists it, under the same
    full name with another description. *)
Definition repo_a_again : Repo :=
  {| name := "alpha"; full_name := "octo/alpha";
     repo_description := Some "Renamed tool"; topics := Some ["cli"] |}.

(** The user's two repositories, the first of which the organization
    lists again; every request succeeds. *)
Definition shared_world : World :=
  {| process_env := fun _ => Some "secret";
     reply_orgs := fun _ => inr [{| login := "octo" |}];
     reply_user_repos := fun _ => inr [repo_a; repo_b];
     reply_org_repos := fun _ _ _ => inr [repo_a_again];
     reply_fetch := fun _ _ _ => inr (embeddings_response [1; 0]%float) |}.

End Examples2.

(** ** Further notions read off the code *)

Module More.
Import JS SmartRouter Trace.

Local Open Scope string_scope.
Local Open Scope list_scope.

(** The elements of a list in the order of their first occurrence. *)
Fixpoint distinct (l : list string) : list string :=
  match l with
  | [] => []
  | x :: l' => x :: filter (fun y => negb (String.eqb y x)) (distinct l')
  end.

(** The characters a token of [extractKeywords] is made of: lowercase
    letters, digits and the underscore. *)
Definition is_token_char (c : ascii) : bool :=
  is_lower c || is_digit c || (code c =? 95)%nat.

Fixpoint all_chars (p : ascii -> bool) (s : string) : bool :=
  match s with
  | EmptyString => true
  | String c s' => p c && all_chars p s'
  end.

(** The text [processRepositories] embeds for a repository: the template
    literal of its description and its keywords. *)
Definition embedding_text (repo : Repo) : string :=
  (string_or (repo_description repo) "" ++ " "
   ++ join " " (map Some (extractKeywords repo)))%string.

(** The record [processRepositories] stores for a repository once its
    text is embedded as [v]. *)
Definition record_of (repo : Repo) (v : list float) : RepositoryRecord :=
  {| description := string_or (repo_description repo) "";
     keywords := extractKeywords repo;
     embedding := v |}.

(** The requests and the assignments of a history, in order. *)
Fixpoint requests (evs : list Event) : list Call :=
  match evs with
  | [] => []
  | Request c :: evs' => c :: requests evs'
  | _ :: evs' => requests evs'
  end.

Fixpoint assignments (evs : list Event) : list (string * RepositoryRecord) :=
  match evs with
  | [] => []
  | Assign key r :: evs' => (key, r) :: assignments evs'
  | _ :: evs' => assignments evs'
  end.

(** The record a history assigned last to a key, if it assigned one. *)
Fixpoint last_assigned (evs : list Event) (key : string) : option RepositoryRecord :=
  match evs with
  | [] => None
  | Assign k r :: evs' =>
      match last_assigned evs' key with
      | Some later => Some later
      | None => if String.eqb key k then Some r else None
      end
  | _ :: evs' => last_assigned evs' key
  end.

Definition is_fetch (c : Call) : bool :=
  match c with
  | fetch _ _ => true
  | _ => false
  end.

(** The embeddings request a router with the given headers sends for a
    text. *)
Definition embeddings_call (headers : list (string * string)) (text : string) : Call :=
  fetch embeddings_url (embeddings_request headers text).

(** What [processRepositories] does for repositories whose texts embed as
    the paired vectors: one request and one assignment each, in order. *)
Definition stored_steps (headers : list (string * string))
    (pairs : list (Repo * list float)) : list Event :=
  flat_map
    (fun p => [Request (embeddings_call headers (embedding_text (fst p)));
               Assign (full_name (fst p)) (record_of (fst p) (snd p))])
    pairs.

Definition store_all (pairs : list (Repo * list float))
    (o : object RepositoryRecord) : object RepositoryRecord :=
  fold_left (fun o p => set o (full_name (fst p)) (record_of (fst p) (snd p))) pairs o.

(** What [fetchOrgRepositories] does for an organization whose page holds
    the paired repositories: the listing request, then their steps. *)
Definition org_steps (headers : list (string * string))
    (run : Org * list (Repo * list float)) : list Event :=
  Request (repos_listForOrg (login (fst run)) 100) :: stored_steps headers (snd run).

(** The vectors paired with the repositories are the ones the provider
    answered with: each text, requested after the history so far, embeds
    as the vector paired with its repository. *)
Fixpoint embedded (w : World) (headers : list (string * string)) (h : list Event)
    (pairs : list (Repo * list float)) : Prop :=
  match pairs with
  | [] => True
  | p :: rest =>
      settle (reply_fetch w h embeddings_url
                (embeddings_request headers (embedding_text (fst p)))) = Ok (snd p)
      /\ embedded w headers (h ++ stored_steps headers [p]) rest
  end.

(** The runs paired with the organizations are the ones the listings
    answered with: each organization, asked after the history so far for
    a page of 100, lists the repositories of its run, and their vectors
    are the ones the provider answered with. *)
Fixpoint org_pages (w : World) (headers : list (string * string)) (h : list Event)
    (org_runs : list (Org * list (Repo * list float))) : Prop :=
  match org_runs with
  | [] => True
  | run :: rest =>
      reply_org_repos w h (login (fst run)) 100 = inr (map fst (snd run))
      /\ embedded w headers (h ++ [Request (repos_listForOrg (login (fst run)) 100)]) (snd run)
      /\ org_pages w headers (h ++ org_steps headers run) rest
  end.

Definition is_console_error (ev : Event) : bool :=
  match ev with
  | ConsoleError _ _ => true
  | _ => false
  end.

(** The listing requests of a history: those that are not embeddings
    requests. *)
Definition listings (evs : list Event) : list Call :=
  filter (fun c => negb (is_fetch c)) (requests evs).

(** The shape of every request the router sends: a listing, where an
    organization's repositories are asked for in one page of 100, or a
    POST to the embeddings endpoint with the fixed model and the router's
    headers. *)
Definition well_formed_request (headers : list (string * string)) (c : Call) : Prop :=
  match c with
  | orgs_listForAuthenticatedUser | repos_listForAuthenticatedUser => True
  | repos_listForOrg _ per_page => per_page = 100
  | fetch url init =>
      url = embeddings_url /\ method init = "POST"
      /\ SmartRouter.headers init = headers /\ model (body init) = "voyage-01"
  end.

(** A method all of whose requests are well formed, however it ends; it
    leaves the headers of the router alone. *)
Definition well_formed (m : M unit) : Prop :=
  forall st out st',
    m st = (out, st') ->
    exists evs,
      events st' = events st ++ evs
      /\ voyageHeaders (this st') = voyageHeaders (this st)
      /\ Forall (well_formed_request (voyageHeaders (this st))) (requests evs).

(* [y] is not yet a member of [acc]. *)
Definition absent_from (acc : list string) (y : string) : bool :=
  negb (existsb (String.eqb y) acc).

End More.

(** ** The form: the repository dropdown and the debounced listener *)

(** What the page-load handler binds once the router is initialized. The
    DOM is modelled as far as the handler reads or writes it: an option
    has its [value], the [display] of its inline style and its
    selectedness; a select has its options in document order and is
    single or [multiple]. Timers are the table of [setTimeout]: a timer
    is pending from the call that creates it until it fires or is
    cleared, and never fires before it is due. *)
Module Page.
Import JS SmartRouter.

Local Open Scope string_scope.
Local Open Scope list_scope.

Record OptionElement := {
  option_value : string;
  style_display : string;
  selected : bool
}.

Record SelectElement := {
  multiple : bool;
  options : list OptionElement
}.

(** [matches.includes(repo)] *)
Definition includes (matches : list string) (repo : string) : bool :=
  existsb (String.eqb repo) matches.

(** [option.style.display = d] *)
Definition set_display (d : string) (option : OptionElement) : OptionElement :=
  {| option_value := option_value option; style_display := d; selected := selected option |}.

Definition set_selected (b : bool) (option : OptionElement) : OptionElement :=
  {| option_value := option_value option; style_display := style_display option; selected := b |}.

(** The [forEach] over the options: an option is shown when its value is
    among the matches and hidden otherwise. *)
Definition show_matches (matches : list string) (opts : list OptionElement) : list OptionElement :=
  map (fun option =>
         let repo := option_value option in
         set_display (if includes matches repo then "" else "none") option)
      opts.

(** [repoSelect.selectedOptions] *)
Definition selectedOptions (opts : list OptionElement) : list OptionElement :=
  filter selected opts.

(** [opt.style.display !== 'none'] *)
Definition visible (opt : OptionElement) : bool :=
  negb (String.eqb (style_display opt) "none").

(** [Array.prototype.find], by position: options are nodes, two of them
    may carry the same value. *)
Fixpoint find_index {A} (p : A -> bool) (l : list A) : option nat :=
  match l with
  | [] => None
  | x :: l' => if p x then Some 0 else option_map S (find_index p l')
  end.

(** [option.selected = true] on the option at position [i]: in a single
    select the other options lose their selectedness, in a multiple one
    they keep it. *)
Fixpoint select_at (multi : bool) (i : nat) (opts : list OptionElement) {struct opts}
  : list OptionElement :=
  match opts with
  | [] => []
  | o :: rest =>
      match i with
      | 0 => set_selected true o :: (if multi then rest else map (set_selected false) rest)
      | S i' => (if multi then o else set_selected false o) :: select_at multi i' rest
      end
  end.

(** *** Positions in the dropdown *)

(** [i] is the position of the first element of [l] that satisfies [p]. *)
Definition first_where {A} (p : A -> bool) (l : list A) (i : nat) : Prop :=
  (exists x, nth_error l i = Some x /\ p x = true)
  /\ (forall j x, (j < i)%nat -> nth_error l j = Some x -> p x = false).

(** The option at position [i] is selected and no other is. *)
Definition only_selected (opts : list OptionElement) (i : nat) : Prop :=
  forall j o, nth_error opts j = Some o -> selected o = Nat.eqb j i.

Section Callback.

Variable world : World.

(** The timer's callback, for the text [description] read from the field
    and the dropdown as it is when the query resolves. The callback is
    not inside the handler's [try]: what it throws is caught by nobody.
    The dropdown is returned in every case, with what was written to it
    before a throw. *)
Definition evaluate (description : string) (st : State) (repoSelect : SelectElement)
  : outcome unit * State * SelectElement :=
  match findMatches world description st with
  | (Throw e, st') => (Throw e, st', repoSelect)
  | (Ok matches, st') =>
      let shown := {| multiple := multiple repoSelect;
                      options := show_matches matches (options repoSelect) |} in
      match selectedOptions (options shown) with
      | [] => (Throw (cannot_read "undefined" "style"), st', shown)
      | first :: _ =>
          if String.eqb (style_display first) "none" then
            match find_index visible (options shown) with
            | Some firstVisible =>
                (Ok tt, st',
                 {| multiple := multiple shown;
                    options := select_at (multiple shown) firstVisible (options shown) |})
            | None => (Ok tt, st', shown)
            end
          else (Ok tt, st', shown)
      end
  end.

End Callback.

(** *** The debounce *)

Local Open Scope Z_scope.

Record Timer := { timer_id : nat; due : Z }.

(** The description field with its listener: the clock in milliseconds,
    the text of the field, the pending timers, the listener's
    [debounceTimer] variable, and the descriptions for which an
    evaluation was started, oldest first. *)
Record Listener := {
  clock : Z;
  field_value : string;
  pending : list Timer;
  next_timer : nat;
  debounceTimer : option nat;
  started : list string
}.

Definition bound : Listener :=
  {| clock := 0; field_value := ""; pending := []; next_timer := 1;
     debounceTimer := None; started := [] |}.

(** [clearTimeout(id)]: no effect for [undefined], or for a timer that
    has fired already. *)
Definition clearTimeout (id : option nat) (timers : list Timer) : list Timer :=
  match id with
  | None => timers
  | Some i => filter (fun t => negb (Nat.eqb (timer_id t) i)) timers
  end.

Definition delay : Z := 300.

Inductive Step :=
| Input (value : string)   (* the user edits the field: an [input] event *)
| Wait (ms : Z)            (* time passes *)
| Fire (id : nat).         (* the timer [id] runs its callback *)

(** One step; [None] when the step cannot happen: time does not run
    backwards, and a timer fires only when it is pending and due. *)
Definition step (s : Listener) (e : Step) : option Listener :=
  match e with
  | Input value =>
      let cleared := clearTimeout (debounceTimer s) (pending s) in
      Some {| clock := clock s;
              field_value := value;
              pending := cleared ++ [{| timer_id := next_timer s; due := clock s + delay |}];
              next_timer := S (next_timer s);
              debounceTimer := Some (next_timer s);
              started := started s |}
  | Wait ms =>
      if 0 <=? ms then
        Some {| clock := clock s + ms;
                field_value := field_value s;
                pending := pending s;
                next_timer := next_timer s;
                debounceTimer := debounceTimer s;
                started := started s |}
      else None
  | Fire id =>
      match find (fun t => Nat.eqb (timer_id t) id) (pending s) with
      | Some t =>
          if due t <=? clock s then
            Some {| clock := clock s;
                    field_value := field_value s;
                    pending := clearTimeout (Some id) (pending s);
                    next_timer := next_timer s;
                    debounceTimer := debounceTimer s;
                    started := (started s ++ [field_value s])%list |}
          else None
      | None => None
      end
  end.

Fixpoint run (s : Listener) (steps : list Step) : option Listener :=
  match steps with
  | [] => Some s
  | e :: rest =>
      match step s e with
      | Some s' => run s' rest
      | None => None
      end
  end.

(** The time waited since the last input of a history, and the text of
    that input; [None] when there was no input. *)
Fixpoint since_input (steps : list Step) (last : option (string * Z)) : option (string * Z) :=
  match steps with
  | [] => last
  | Input value :: rest => since_input rest (Some (value, 0))
  | Wait ms :: rest =>
      since_input rest (option_map (fun '(value, t) => (value, t + ms)) last)
  | Fire _ :: rest => since_input rest last
  end.

(* What holds of the listener after any history; [last] is the text of
   the last input and the time waited since, as [since_input] has it. *)
Definition invariant (s : Listener) (last : option (string * Z)) : Prop :=
  (List.length (pending s) <= 1)%nat
  /\ (forall t, In t (pending s) ->
        debounceTimer s = Some (timer_id t)
        /\ exists value waited, last = Some (value, waited)
                                /\ due t = clock s - waited + delay)
  /\ (forall value waited, last = Some (value, waited) -> field_value s = value)
  /\ (forall id, debounceTimer s = Some id -> (id < next_timer s)%nat).

Definition after_step (e : Step) (last : option (string * Z)) : option (string * Z) :=
  match e with
  | Input value => Some (value, 0)
  | Wait ms => option_map (fun '(value, t) => (value, t + ms)) last
  | Fire _ => last
  end.

End Page.

(** ** Example dropdowns *)

Module PageExamples.
Import JS SmartRouter Page.

Local Open Scope string_scope.
Local Open Scope list_scope.

Definition opt (value : string) (sel : bool) : OptionElement :=
  {| option_value := value; style_display := ""; selected := sel |}.

(** A single select whose selected option names no stored repository. *)
Definition dropdown : SelectElement :=
  {| multiple := false;
     options := [opt "octo/legacy" true; opt "octo/a" false; opt "octo/c" false] |}.

(** A select nothing is selected in. *)
Definition unselected : SelectElement :=
  {| multiple := true; options := [opt "octo/a" false; opt "octo/c" false] |}.

End PageExamples.

(** ** Facts about binary64 arithmetic *)

Module Binary64.

Local Open Scope Z_scope.

Lemma iter_pos_nat {A} (f : A -> A) (p : positive) (x : A) :
  iter_pos f p x = Nat.iter (Pos.to_nat p) f x.
Proof.
  revert x; induction p as [p IH | p IH | ]; intros x; simpl iter_pos.
  - rewrite !IH, Pos2Nat.inj_xI.
    replace (S (2 * Pos.to_nat p)) with (Pos.to_nat p + (Pos.to_nat p + 1))%nat by lia.
    rewrite !Nat.iter_add. reflexivity.
  - rewrite !IH, Pos2Nat.inj_xO.
    replace (2 * Pos.to_nat p)%nat with (Pos.to_nat p + Pos.to_nat p)%nat by lia.
    rewrite Nat.iter_add. reflexivity.
  - reflexivity.
Qed.

Lemma digits2_pos_bounds (m : positive) :
  2 ^ (Zpos (digits2_pos m) - 1) <= Zpos m < 2 ^ Zpos (digits2_pos m).
Proof.
  induction m as [m IH | m IH | ]; simpl digits2_pos.
  - rewrite Pos2Z.inj_succ.
    replace (Z.succ (Zpos (digits2_pos m)) - 1) with (Z.succ (Zpos (digits2_pos m) - 1)) by lia.
    rewrite !Z.pow_succ_r by lia. lia.
  - rewrite Pos2Z.inj_succ.
    replace (Z.succ (Zpos (digits2_pos m)) - 1) with (Z.succ (Zpos (digits2_pos m) - 1)) by lia.
    rewrite !Z.pow_succ_r by lia. lia.
  - simpl. lia.
Qed.

(** Shifting a positive mantissa right by fewer bits than it has leaves a
    positive mantissa. *)
Lemma shr_1_iter_pos (n : nat) :
  forall m r s, (n < Pos.to_nat (digits2_pos m))%nat ->
  exists m' r' s', Nat.iter n shr_1 (Build_shr_record (Zpos m) r s) = Build_shr_record (Zpos m') r' s'.
Proof.
  induction n as [| n IH]; intros m r s Hn.
  - simpl. eauto.
  - rewrite Nat.iter_succ_r.
    destruct m as [p | p | ]; simpl digits2_pos in Hn; try rewrite Pos2Nat.inj_succ in Hn.
    + simpl shr_1. apply IH. lia.
    + simpl shr_1. apply IH. lia.
    + simpl in Hn. lia.
Qed.

Lemma shr_fexp_pos (m : positive) (e : Z) (l : location) :
  emin <= e ->
  exists m' r' s' e', shr_fexp prec emax (Zpos m) e l = (Build_shr_record (Zpos m') r' s', e') /\ emin <= e'.
Proof.
  intros He. unfold shr_fexp, shr. simpl Zdigits2.
  destruct (fexp prec emax (Zpos (digits2_pos m) + e) - e) as [| p | p] eqn:Hn.
  - destruct l as [| []]; simpl; eauto 8.
  - assert (Hlt : (Pos.to_nat p < Pos.to_nat (digits2_pos m))%nat).
    { unfold fexp, SpecFloat.emin, prec, emax in *. lia. }
    rewrite iter_pos_nat.
    assert (exists r s, shr_record_of_loc (Zpos m) l = Build_shr_record (Zpos m) r s) as (r & s & ->)
      by (destruct l as [| []]; simpl; eauto).
    destruct (shr_1_iter_pos _ m r s Hlt) as (m' & r' & s' & ->).
    exists m', r', s', (e + Zpos p). split; [reflexivity | lia].
  - destruct l as [| []]; simpl; eauto 8.
Qed.

(** Rounding a non-zero value whose exponent is in range never yields a
    zero, and keeps the sign. *)
Lemma binary_round_aux_pos (sx : bool) (m : positive) (e : Z) (l : location) :
  emin <= e ->
  (exists m' e', binary_round_aux prec emax sx (Zpos m) e l = S754_finite sx m' e')
  \/ binary_round_aux prec emax sx (Zpos m) e l = S754_infinity sx.
Proof.
  intros He. unfold binary_round_aux.
  destruct (shr_fexp_pos m e l He) as (m1 & r1 & s1 & e1 & -> & He1).
  assert (exists m2, round_nearest_even (shr_m (Build_shr_record (Zpos m1) r1 s1))
            (loc_of_shr_record (Build_shr_record (Zpos m1) r1 s1)) = Zpos m2) as (m2 & ->).
  { simpl shr_m. destruct r1, s1; simpl; eauto; destruct m1; simpl; eauto. }
  destruct (shr_fexp_pos m2 e1 loc_Exact He1) as (m3 & r3 & s3 & e3 & -> & He3).
  simpl shr_m. destruct (e3 <=? emax - prec); eauto.
Qed.

Lemma shl_align_emin (m : positive) (e e' : Z) :
  emin <= e -> emin <= e' -> emin <= snd (shl_align m e e').
Proof. intros He He'. unfold shl_align. destruct (e' - e); simpl; assumption. Qed.

Lemma binary_round_pos (sx : bool) (m : positive) (e : Z) :
  emin <= e ->
  (exists m' e', binary_round prec emax sx m e = S754_finite sx m' e')
  \/ binary_round prec emax sx m e = S754_infinity sx.
Proof.
  intros He. unfold binary_round.
  pose proof (shl_align_emin m e (fexp prec emax (Zpos (digits2_pos m) + e)) He) as Hs.
  destruct (shl_align m e _) as [mz ez]. simpl in Hs.
  apply binary_round_aux_pos, Hs. unfold fexp, SpecFloat.emin, prec, emax. lia.
Qed.

Lemma iter_xO_pow2 (m d : positive) : Zpos (Pos.iter xO m d) = Zpos m * 2 ^ Zpos d.
Proof.
  induction d as [| d IH] using Pos.peano_ind.
  - simpl. lia.
  - rewrite Pos.iter_succ, Pos2Z.inj_succ, Z.pow_succ_r by lia.
    rewrite Pos2Z.inj_xO, IH. lia.
Qed.

Lemma shl_align_fst (m : positive) (e e' : Z) :
  e' <= e -> Zpos (fst (shl_align m e e')) = Zpos m * 2 ^ (e - e').
Proof.
  intros Hle. unfold shl_align.
  destruct (e' - e) as [| d | d] eqn:Hd; simpl fst.
  - replace (e - e') with 0 by lia. lia.
  - lia.
  - rewrite iter_xO_pow2. f_equal. f_equal. lia.
Qed.

Lemma bounded_inv (m : positive) (e : Z) :
  bounded prec emax m e = true ->
  emin <= e /\ Zpos m < 2 ^ prec /\ (emin < e -> 2 ^ (prec - 1) <= Zpos m).
Proof.
  unfold bounded, canonical_mantissa. intros H.
  apply andb_true_iff in H as [H _]. apply Z.eqb_eq in H.
  pose proof (digits2_pos_bounds m) as [Hlo Hhi].
  unfold fexp, SpecFloat.emin, prec, emax in *.
  split; [lia | split].
  - apply Z.lt_le_trans with (1 := Hhi). apply Z.pow_le_mono_r; lia.
  - intros Hlt. replace (Zpos (digits2_pos m)) with 53 in Hlo by lia. exact Hlo.
Qed.

(** Of two canonical mantissas the one with the smaller exponent is the
    smaller, once both are aligned on that exponent. *)
Lemma lt_aligned (mx my : positive) (ex ey : Z) :
  bounded prec emax mx ex = true -> bounded prec emax my ey = true ->
  ex < ey ->
  Zpos (fst (shl_align mx ex ex)) < Zpos (fst (shl_align my ey ex)).
Proof.
  intros Hx Hy Hlt.
  apply bounded_inv in Hx as (Hex & Hmx & _).
  apply bounded_inv in Hy as (Hey & _ & Hmy).
  rewrite !shl_align_fst by lia.
  replace (ex - ex) with 0 by lia. rewrite Z.pow_0_r, Z.mul_1_r.
  specialize (Hmy ltac:(lia)).
  assert (H2 : 2 ^ 1 <= 2 ^ (ey - ex)) by (apply Z.pow_le_mono_r; lia).
  change (2 ^ 1) with 2 in H2.
  change (2 ^ prec) with (2 * 2 ^ (prec - 1)) in Hmx.
  nia.
Qed.

(** [SFcompare] on canonical finite numbers compares the signed mantissas
    aligned on the smaller exponent: the integers [SFsub] subtracts. *)
Lemma SFcompare_aligned (sx sy : bool) (mx my : positive) (ex ey : Z) :
  bounded prec emax mx ex = true -> bounded prec emax my ey = true ->
  SFcompare (S754_finite sx mx ex) (S754_finite sy my ey)
  = Some (cond_Zopp sx (Zpos (fst (shl_align mx ex (Z.min ex ey))))
          ?= cond_Zopp sy (Zpos (fst (shl_align my ey (Z.min ex ey))))).
Proof.
  intros Hx Hy. simpl SFcompare. f_equal.
  destruct (Z.compare_spec ex ey) as [Heq | Hlt | Hgt].
  - subst ey. rewrite Z.min_id, !shl_align_fst by lia.
    replace (ex - ex) with 0 by lia. rewrite Z.pow_0_r, !Z.mul_1_r.
    destruct sx, sy; reflexivity.
  - rewrite Z.min_l by lia.
    pose proof (lt_aligned mx my ex ey Hx Hy Hlt) as H.
    destruct sx, sy; unfold cond_Zopp; symmetry.
    + apply Z.compare_gt_iff. lia.
    + apply Z.compare_lt_iff. lia.
    + apply Z.compare_gt_iff. lia.
    + apply Z.compare_lt_iff. lia.
  - rewrite Z.min_r by lia.
    pose proof (lt_aligned my mx ey ex Hy Hx ltac:(lia)) as H.
    destruct sx, sy; unfold cond_Zopp; symmetry.
    + apply Z.compare_lt_iff. lia.
    + apply Z.compare_lt_iff. lia.
    + apply Z.compare_gt_iff. lia.
    + apply Z.compare_gt_iff. lia.
Qed.

Lemma binary_normalize_sign (d e : Z) :
  emin <= e ->
  SFcompare (S754_zero false) (binary_normalize prec emax d e false) = Some (0 ?= d).
Proof.
  intros He. destruct d as [| p | p]; simpl binary_normalize.
  - reflexivity.
  - destruct (binary_round_pos false p e He) as [(m' & e' & ->) | ->]; reflexivity.
  - destruct (binary_round_pos true p e He) as [(m' & e' & ->) | ->]; reflexivity.
Qed.

(** The difference of two numbers is positive exactly when the first is the
    greater: subtraction never underflows to zero. *)
Lemma SFsub_sign (x y : spec_float) :
  valid_binary x = true -> valid_binary y = true ->
  SFltb (S754_zero false) (SF64sub x y) = SFltb y x.
Proof.
  intros Hx Hy. unfold SFltb.
  destruct x as [[] | [] | | sx mx ex], y as [[] | [] | | sy my ey];
    try reflexivity; try (destruct sx; reflexivity); try (destruct sy; reflexivity).
  unfold SF64sub, SFsub. cbv zeta. simpl in Hx, Hy.
  rewrite binary_normalize_sign.
  2:{ apply bounded_inv in Hx as (? & _). apply bounded_inv in Hy as (? & _). lia. }
  rewrite (SFcompare_aligned sy sx my mx ey ex Hy Hx).
  rewrite (Z.min_comm ey ex).
  set (X := cond_Zopp sx _). set (Y := cond_Zopp sy _).
  destruct (Z.compare_spec Y X), (Z.compare_spec 0 (X - Y)); try reflexivity; lia.
Qed.

Lemma SFcompare_antisym (x y : spec_float) :
  SFcompare y x = option_map CompOpp (SFcompare x y).
Proof.
  destruct x as [[] | [] | | [] mx ex], y as [[] | [] | | [] my ey]; try reflexivity;
    simpl; rewrite (Z.compare_antisym ex ey); destruct (ex ?= ey); simpl; try reflexivity;
    change (Pos.compare_cont Eq ?a ?b) with (Pos.compare a b);
    rewrite (Pos.compare_antisym mx my); destruct (mx ?= my)%positive; reflexivity.
Qed.

Lemma SFcompare_Eq (x y : spec_float) :
  SFcompare x y = Some Eq -> x <> S754_zero true -> y <> S754_zero true -> x = y.
Proof.
  destruct x as [[] | [] | | [] mx ex], y as [[] | [] | | [] my ey]; simpl;
    try discriminate; try congruence;
    destruct (Z.compare_spec ex ey); try discriminate;
    change (Pos.compare_cont Eq ?a ?b) with (Pos.compare a b);
    destruct (Pos.compare_spec mx my); try discriminate; intros; subst; reflexivity.
Qed.

Lemma SFcompare_refl (x : spec_float) : x <> S754_nan -> SFcompare x x = Some Eq.
Proof.
  destruct x as [[] | [] | | [] m e]; simpl; try congruence; intros _;
    rewrite Z.compare_refl; change (Pos.compare_cont Eq m m) with (Pos.compare m m);
    rewrite Pos.compare_refl; reflexivity.
Qed.

Lemma SFltb_trans (x y z : spec_float) :
  SFltb x y = true -> SFltb y z = true -> SFltb x z = true.
Proof.
  unfold SFltb.
  destruct x as [[] | [] | | [] mx ex], y as [[] | [] | | [] my ey], z as [[] | [] | | [] mz ez];
    simpl; try discriminate; try reflexivity;
    change (Pos.compare_cont Eq ?a ?b) with (Pos.compare a b);
    destruct (Z.compare_spec ex ey); try discriminate;
    destruct (Z.compare_spec ey ez); try discriminate;
    destruct (Z.compare_spec ex ez); try reflexivity; try lia;
    destruct (Pos.compare_spec mx my); try discriminate;
    destruct (Pos.compare_spec my mz); try discriminate;
    destruct (Pos.compare_spec mx mz); try reflexivity; try lia;
    subst; try lia.
Qed.

Lemma SFmul_comm (x y : spec_float) : SF64mul x y = SF64mul y x.
Proof.
  destruct x as [sx | sx | | sx mx ex], y as [sy | sy | | sy my ey]; simpl;
    try rewrite (xorb_comm sx sy); try reflexivity.
  rewrite (Pos.mul_comm mx my), (Z.add_comm ex ey). reflexivity.
Qed.

(** *** The same facts on primitive floats *)

Local Open Scope float_scope.

Lemma sub_pos_iff_lt (x y : float) : (0 <? x - y) = (y <? x).
Proof.
  rewrite !ltb_spec, sub_spec.
  change (Prim2SF 0) with (S754_zero false).
  apply SFsub_sign; apply Prim2SF_valid.
Qed.

Lemma mul_comm (x y : float) : x * y = y * x.
Proof. apply Prim2SF_inj. rewrite !mul_spec. apply SFmul_comm. Qed.

Lemma ltb_trans (x y z : float) :
  (x <? y) = true -> (y <? z) = true -> (x <? z) = true.
Proof. rewrite !ltb_spec. apply SFltb_trans. Qed.

Lemma is_nan_spec (x : float) : is_nan x = true <-> Prim2SF x = S754_nan.
Proof.
  unfold is_nan. rewrite FloatAxioms.eqb_spec. unfold SFeqb. split.
  - intros H. destruct (Prim2SF x) as [[] | [] | | [] m e] eqn:E; try reflexivity;
      try discriminate H; rewrite SFcompare_refl in H by discriminate; discriminate H.
  - intros ->. reflexivity.
Qed.

Lemma is_zero_spec (x : float) : is_zero x = true <-> exists s, Prim2SF x = S754_zero s.
Proof.
  unfold is_zero. rewrite FloatAxioms.eqb_spec. change (Prim2SF PrimFloat.zero) with (S754_zero false).
  unfold SFeqb. split.
  - destruct (Prim2SF x) as [s | [] | | [] m e]; simpl; try discriminate; eauto.
  - intros (s & ->). reflexivity.
Qed.

(** A number is falsy when it is a zero or [NaN]. *)
Lemma falsy_spec (x : float) :
  JS.ToBoolean x = false <-> Prim2SF x = S754_nan \/ exists s, Prim2SF x = S754_zero s.
Proof.
  unfold JS.ToBoolean. rewrite <- is_nan_spec, <- is_zero_spec.
  destruct (is_nan x), (is_zero x); simpl; intuition discriminate.
Qed.

Lemma falsy_mul_l (x y : float) : JS.ToBoolean x = false -> JS.ToBoolean (x * y) = false.
Proof.
  rewrite !falsy_spec, mul_spec.
  intros [-> | (s & ->)]; destruct (Prim2SF y) as [sy | sy | | sy my ey]; simpl; eauto.
Qed.

Lemma falsy_mul_r (x y : float) : JS.ToBoolean y = false -> JS.ToBoolean (x * y) = false.
Proof. rewrite mul_comm. apply falsy_mul_l. Qed.

Lemma falsy_add (x y : float) :
  JS.ToBoolean x = false -> JS.ToBoolean y = false -> JS.ToBoolean (x + y) = false.
Proof.
  rewrite !falsy_spec, add_spec.
  intros [-> | (s & ->)] [-> | (t & ->)]; simpl; eauto; destruct s, t; simpl; eauto.
Qed.

Lemma falsy_sqrt (x : float) : JS.ToBoolean x = false -> JS.ToBoolean (sqrt x) = false.
Proof.
  rewrite !falsy_spec, sqrt_spec.
  intros [-> | (s & ->)]; simpl; eauto.
Qed.

Lemma falsy_div (x y : float) :
  JS.ToBoolean x = false -> JS.ToBoolean y = false -> is_nan (x / y) = true.
Proof.
  rewrite !falsy_spec, is_nan_spec, div_spec.
  intros [-> | (s & ->)] [-> | (t & ->)]; reflexivity.
Qed.

Lemma or_zero_not_nan (x : float) : is_nan (JS.logical_or x 0) = false.
Proof.
  unfold JS.logical_or, JS.ToBoolean. destruct (is_nan x) eqn:E; simpl; [reflexivity |].
  destruct (is_zero x); simpl; [reflexivity | exact E].
Qed.

(** [x || 0] is neither [NaN] nor [-0]. *)
Lemma or_zero_canonical (x : float) :
  Prim2SF (JS.logical_or x 0) <> S754_nan /\ Prim2SF (JS.logical_or x 0) <> S754_zero true.
Proof.
  split.
  - intros H. apply is_nan_spec in H. rewrite or_zero_not_nan in H. discriminate.
  - unfold JS.logical_or. destruct (JS.ToBoolean x) eqn:E.
    + intros H. assert (F : JS.ToBoolean x = false) by (apply falsy_spec; eauto).
      congruence.
    + discriminate.
Qed.

(** Two numbers that are neither [NaN] nor [-0] are equal or one is the
    greater. *)
Lemma ltb_total (x y : float) :
  Prim2SF x <> S754_nan -> Prim2SF x <> S754_zero true ->
  Prim2SF y <> S754_nan -> Prim2SF y <> S754_zero true ->
  (x <? y) = false -> (y <? x) = true \/ x = y.
Proof.
  intros Hx Hx0 Hy Hy0. rewrite !ltb_spec. unfold SFltb.
  rewrite (SFcompare_antisym (Prim2SF x) (Prim2SF y)).
  destruct (SFcompare (Prim2SF x) (Prim2SF y)) as [[] |] eqn:E; simpl; intros H;
    try discriminate; auto.
  - right. apply Prim2SF_inj. apply SFcompare_Eq; assumption.
  - exfalso. destruct (Prim2SF x) as [[] | [] | | [] ? ?], (Prim2SF y) as [[] | [] | | [] ? ?];
      simpl in E; congruence.
Qed.

Lemma ltb_irrefl (x : float) : (x <? x) = false.
Proof.
  rewrite ltb_spec. unfold SFltb.
  destruct (Prim2SF x) as [[] | [] | | [] m e] eqn:E; try reflexivity;
    rewrite SFcompare_refl by discriminate; reflexivity.
Qed.

End Binary64.

(** ** The model at work *)

Module Checks.
Import JS SmartRouter Trace Examples.

Local Open Scope string_scope.

(** ["  a  b ".split(/\s+/)] keeps the empty pieces at both ends. *)
Example split_keeps_ends : split_whitespace "  a  b " = [""; "a"; "b"; ""].
Proof. reflexivity. Qed.

Example split_empty : split_whitespace "" = [""].
Proof. reflexivity. Qed.

Example join_null : join " " [Some "My-Repo!"; None] = "My-Repo! ".
Proof. reflexivity. Qed.

Example lowercase_and_replace :
  replace_non_word_non_space (toLowerCase "My-Repo! A_cool tool")
  = "my repo  a_cool tool".
Proof. reflexivity. Qed.

Example set_replaces_in_place :
  set (set (set [] "octo/a" 1) "octo/b" 2) "octo/a" 3 = [("octo/a", 3); ("octo/b", 2)].
Proof. reflexivity. Qed.

Example similarity_parallel :
  calculateCosineSimilarity [3; 4]%float [6; 8]%float = 1%float.
Proof. reflexivity. Qed.

Example similarity_orthogonal :
  calculateCosineSimilarity [1; 0]%float [0; 1]%float = 0%float.
Proof. reflexivity. Qed.

(** A second vector that is too short reads [undefined] past its end. *)
Example similarity_short_vector :
  calculateCosineSimilarity [1; 2]%float [1]%float = 0%float.
Proof. reflexivity. Qed.

(** The underflow of a squared norm makes the quotient infinite. *)
Example similarity_underflow :
  calculateCosineSimilarity [1e-200]%float [1]%float = infinity.
Proof. reflexivity. Qed.

Example ranking_with_a_tie :
  fst (findMatches quiet_world "router" loaded) = Ok ["octo/c"; "octo/b"; "octo/d"; "octo/a"].
Proof. reflexivity. Qed.

Example initialize_stops_at_the_failure :
  fst (initialize flaky_world fresh) = Throw (Rejection "Failed to fetch")
  /\ keys (repositories (this (snd (initialize flaky_world fresh)))) = ["octo/alpha"].
Proof. split; reflexivity. Qed.

End Checks.

(** ** Cosine similarity *)

Module Cosine.
Import JS SmartRouter Spec Binary64.

Local Open Scope float_scope.

(** The loop keeps three independent running sums. *)
Lemma loop_sums (a b : list float) (indices : list nat) (d n1 n2 : float) :
  fold_left
    (fun (acc : float * float * float) (i : nat) =>
       let '(dotProduct, norm1, norm2) := acc in
       (dotProduct + at_index a i * at_index b i,
        norm1 + at_index a i * at_index a i,
        norm2 + at_index b i * at_index b i))
    indices (d, n1, n2)
  = (sum_products a b indices d, sum_products a a indices n1, sum_products b b indices n2).
Proof.
  revert d n1 n2. induction indices as [| i indices IH]; intros d n1 n2; simpl.
  - reflexivity.
  - apply IH.
Qed.

Lemma calculateCosineSimilarity_sums (a b : list float) :
  calculateCosineSimilarity a b
  = JS.logical_or (sum_products a b (seq 0 (List.length a)) 0
           / (sqrt (sum_products a a (seq 0 (List.length a)) 0)
              * sqrt (sum_products b b (seq 0 (List.length a)) 0))) 0.
Proof. unfold calculateCosineSimilarity. rewrite loop_sums. reflexivity. Qed.

Lemma sum_products_comm (a b : list float) (indices : list nat) (acc : float) :
  sum_products a b indices acc = sum_products b a indices acc.
Proof.
  revert acc. induction indices as [| i indices IH]; intros acc; simpl.
  - reflexivity.
  - unfold sum_products in *. simpl. rewrite (mul_comm (at_index a i)). apply IH.
Qed.

Lemma calculateCosineSimilarity_quotient (a b : list float) :
  List.length a = List.length b ->
  calculateCosineSimilarity a b = JS.logical_or (cosine a b) 0.
Proof.
  intros Hlen. rewrite calculateCosineSimilarity_sums.
  unfold cosine, magnitude, dot. rewrite <- Hlen. reflexivity.
Qed.

Lemma sum_products_falsy (a b : list float) (indices : list nat) (acc : float) :
  (forall i, ToBoolean (at_index a i * at_index b i) = false) ->
  ToBoolean acc = false ->
  ToBoolean (sum_products a b indices acc) = false.
Proof.
  intros Hprod. revert acc. induction indices as [| i indices IH]; intros acc Hacc.
  - exact Hacc.
  - unfold sum_products in *. simpl. apply IH. apply falsy_add; auto.
Qed.

(** A component of an all-zero vector is a zero, and [NaN] past its end. *)
Lemma all_zero_at (a : list float) (i : nat) :
  all_zero a -> ToBoolean (at_index a i) = false.
Proof.
  intros Ha. unfold at_index.
  destruct (nth_in_or_default i a nan) as [Hin | ->]; [| reflexivity].
  unfold all_zero in Ha. rewrite Forall_forall in Ha. specialize (Ha _ Hin).
  unfold ToBoolean. rewrite Ha, orb_true_r. reflexivity.
Qed.

Lemma or_nan (x y : float) : is_nan x = true -> JS.logical_or x y = y.
Proof. intros H. unfold JS.logical_or, ToBoolean. rewrite H. reflexivity. Qed.

Lemma all_zero_similarity (a b : list float) :
  all_zero a \/ all_zero b -> calculateCosineSimilarity a b = 0.
Proof.
  intros H. rewrite calculateCosineSimilarity_sums. apply or_nan.
  assert (F0 : ToBoolean 0 = false) by reflexivity.
  destruct H as [Ha | Hb].
  - apply falsy_div.
    + apply sum_products_falsy; [| exact F0].
      intros i. apply falsy_mul_l, all_zero_at, Ha.
    + apply falsy_mul_l, falsy_sqrt. apply sum_products_falsy; [| exact F0].
      intros i. apply falsy_mul_l, all_zero_at, Ha.
  - apply falsy_div.
    + apply sum_products_falsy; [| exact F0].
      intros i. apply falsy_mul_r, all_zero_at, Hb.
    + apply falsy_mul_r, falsy_sqrt. apply sum_products_falsy; [| exact F0].
      intros i. apply falsy_mul_l, all_zero_at, Hb.
Qed.

Lemma similarity_not_nan (a b : list float) :
  is_nan (calculateCosineSimilarity a b) = false.
Proof. rewrite calculateCosineSimilarity_sums. apply or_zero_not_nan. Qed.

Lemma similarity_canonical (a b : list float) :
  Prim2SF (calculateCosineSimilarity a b) <> S754_nan
  /\ Prim2SF (calculateCosineSimilarity a b) <> S754_zero true.
Proof. rewrite calculateCosineSimilarity_sums. apply or_zero_canonical. Qed.

(** C1 (amended). The similarity is never [NaN]; it is [0] as soon as one of
    the vectors is all-zero; and on vectors of equal length it is the
    binary64 quotient of the dot product by the product of the magnitudes
    when that quotient is a non-zero number, and [0] when the quotient is
    [NaN] or a zero. *)
Theorem cosine_similarity_guarded (a b : list float) :
  is_nan (calculateCosineSimilarity a b) = false
  /\ (all_zero a \/ all_zero b -> calculateCosineSimilarity a b = 0)
  /\ (List.length a = List.length b ->
      calculateCosineSimilarity a b
      = if is_nan (cosine a b) || is_zero (cosine a b) then 0 else cosine a b).
Proof.
  split; [apply similarity_not_nan | split].
  - apply all_zero_similarity.
  - intros Hlen. rewrite (calculateCosineSimilarity_quotient a b Hlen).
    unfold JS.logical_or, ToBoolean. destruct (is_nan (cosine a b) || is_zero (cosine a b)); reflexivity.
Qed.

(** The guarded rule at work: an all-zero vector against [3, 4], and
    [3, 4] against itself. *)
Lemma cosine_similarity_guarded_witness :
  (calculateCosineSimilarity [0; 0] [3; 4] = 0)
  /\ (calculateCosineSimilarity [3; 4] [3; 4] = 1).
Proof.
  split.
  - destruct (cosine_similarity_guarded [0; 0] [3; 4]) as (_ & H & _).
    apply H. left. repeat constructor.
  - destruct (cosine_similarity_guarded [3; 4] [3; 4]) as (_ & _ & H).
    rewrite (H eq_refl). reflexivity.
Defined.

(** C1 as the specification states it fails: [1e200] is not all-zero, the
    squared norms overflow to infinity, the quotient is [NaN], and the
    result is [0] although the two vectors are the same. *)
Lemma cosine_overflow_counterexample : ~ zero_or_quotient.
Proof.
  intros H. destruct (H [1e200] [1e200] eq_refl) as [_ Hq].
  assert (Hnz : ~ (all_zero [1e200] \/ all_zero [1e200])).
  { intros [Hz | Hz]; inversion Hz as [| ? ? Hx _]; vm_compute in Hx; discriminate Hx. }
  destruct (Hq Hnz) as [Hsame | Hsame].
  - apply (f_equal is_nan) in Hsame. vm_compute in Hsame. discriminate Hsame.
  - vm_compute in Hsame. discriminate Hsame.
Qed.

(** C6. On vectors of equal length the similarity is symmetric, as a value
    and under the [==] of JavaScript numbers. *)
Theorem cosine_similarity_symmetric (a b : list float) :
  List.length a = List.length b ->
  calculateCosineSimilarity a b = calculateCosineSimilarity b a
  /\ (calculateCosineSimilarity a b =? calculateCosineSimilarity b a) = true.
Proof.
  intros Hlen.
  assert (E : calculateCosineSimilarity a b = calculateCosineSimilarity b a).
  { rewrite !calculateCosineSimilarity_sums, <- Hlen.
    rewrite (sum_products_comm b a).
    rewrite (mul_comm (sqrt (sum_products b b _ 0))). reflexivity. }
  split; [exact E |].
  rewrite <- E. pose proof (similarity_not_nan a b) as Hn.
  unfold is_nan in Hn. apply negb_false_iff in Hn. exact Hn.
Qed.

Lemma cosine_similarity_symmetric_witness :
  calculateCosineSimilarity [1; 2; 3] [4; 5; 6] = calculateCosineSimilarity [4; 5; 6] [1; 2; 3]
  /\ (calculateCosineSimilarity [1; 2; 3] [4; 5; 6]
      =? calculateCosineSimilarity [4; 5; 6] [1; 2; 3]) = true.
Proof. apply (cosine_similarity_symmetric [1; 2; 3] [4; 5; 6]). reflexivity. Defined.

End Cosine.

(** ** Insertion order *)

Module InsertionOrder.
Import JS SmartRouter More.

Local Open Scope string_scope.
Local Open Scope list_scope.

Lemma absent_from_spec (acc : list string) (y : string) :
  absent_from acc y = true <-> ~ In y acc.
Proof.
  unfold absent_from. rewrite negb_true_iff, <- not_true_iff_false, existsb_exists.
  split.
  - intros H Hin. apply H. exists y. split; [exact Hin | apply String.eqb_refl].
  - intros H (x & Hin & E). apply String.eqb_eq in E. subst x. exact (H Hin).
Qed.

Lemma filter_twice {A} (f g : A -> bool) (l : list A) :
  filter f (filter g l) = filter (fun x => g x && f x) l.
Proof.
  induction l as [| x l IH]; simpl; [reflexivity |].
  destruct (g x); simpl; [destruct (f x) |]; rewrite ?IH; reflexivity.
Qed.

(** Adding the elements of a list to a set keeps the set and appends the
    new elements in the order of their first occurrence. *)
Lemma fold_Set_add_distinct (l acc : list string) :
  fold_left Set_add l acc = acc ++ filter (absent_from acc) (distinct l).
Proof.
  revert acc. induction l as [| x l IH]; intros acc; simpl.
  - rewrite app_nil_r. reflexivity.
  - rewrite IH, filter_twice. unfold Set_add.
    destruct (in_dec string_dec x acc) as [Hin | Hout].
    + assert (E : absent_from acc x = false).
      { apply not_true_iff_false. rewrite absent_from_spec. tauto. }
      rewrite E. f_equal. apply filter_ext_in. intros y _.
      destruct (absent_from acc y) eqn:Ey; [| rewrite andb_false_r; reflexivity].
      rewrite andb_true_r. symmetry. apply negb_true_iff, String.eqb_neq.
      intros ->. apply absent_from_spec in Ey. exact (Ey Hin).
    + assert (E : absent_from acc x = true) by (apply absent_from_spec; exact Hout).
      rewrite E, <- app_assoc. simpl. f_equal. f_equal. apply filter_ext. intros y.
      unfold absent_from. rewrite existsb_app. simpl. rewrite orb_false_r, negb_orb.
      apply andb_comm.
Qed.

(** The keys of an object grow as a set does: an assignment to a stored
    key leaves them as they are, an assignment to a new key appends it. *)
Lemma keys_set {V} (o : object V) (k : string) (v : V) :
  keys (set o k v) = Set_add (keys o) k.
Proof.
  induction o as [| [k' v'] o IH]; [reflexivity |].
  cbn [set]. destruct (String.eqb k k') eqn:E; unfold keys in *; cbn [map fst].
  - apply String.eqb_eq in E. subst k'. unfold Set_add.
    destruct (in_dec string_dec k (k :: map fst o)) as [_ | Hout]; [reflexivity |].
    exfalso. apply Hout. left. reflexivity.
  - apply String.eqb_neq in E. rewrite IH. unfold Set_add.
    destruct (in_dec string_dec k (map fst o)) as [Hin | Hout];
      destruct (in_dec string_dec k (k' :: map fst o)) as [Hin' | Hout'];
      try reflexivity.
    + exfalso. apply Hout'. right. exact Hin.
    + exfalso. destruct Hin' as [-> | Hin']; [apply E; reflexivity | exact (Hout Hin')].
Qed.

End InsertionOrder.

(** ** Keyword extraction *)

Module Keywords.
Import JS SmartRouter Spec.

Local Open Scope string_scope.

Lemma Set_add_In (s : list string) (x w : string) :
  In w (Set_add s x) <-> In w s \/ w = x.
Proof.
  unfold Set_add. destruct (in_dec string_dec x s) as [Hin | Hout].
  - split; [auto | intros [H | ->]; assumption].
  - rewrite in_app_iff. simpl. intuition congruence.
Qed.

Lemma Set_add_NoDup (s : list string) (x : string) : NoDup s -> NoDup (Set_add s x).
Proof.
  intros Hs. unfold Set_add. destruct (in_dec string_dec x s) as [Hin | Hout]; [exact Hs |].
  apply NoDup_app; [exact Hs | repeat constructor; simpl; tauto |].
  intros y Hy [<- | []]. contradiction.
Qed.

Lemma fold_Set_add_In (l s : list string) (w : string) :
  In w (fold_left Set_add l s) <-> In w s \/ In w l.
Proof.
  revert s. induction l as [| x l IH]; intros s; simpl.
  - tauto.
  - rewrite IH, Set_add_In. intuition congruence.
Qed.

Lemma fold_Set_add_NoDup (l s : list string) : NoDup s -> NoDup (fold_left Set_add l s).
Proof.
  revert s. induction l as [| x l IH]; intros s Hs; simpl; [exact Hs |].
  apply IH, Set_add_NoDup, Hs.
Qed.

Lemma append_empty_r (s : string) : s ++ "" = s.
Proof. induction s as [| c s IH]; simpl; [reflexivity | rewrite IH; reflexivity]. Qed.

Lemma map_chars_compose (f g : ascii -> ascii) (s : string) :
  map_chars g (map_chars f s) = map_chars (fun c => g (f c)) s.
Proof. induction s as [| c s IH]; simpl; [reflexivity | rewrite IH; reflexivity]. Qed.

Lemma map_chars_app (f : ascii -> ascii) (s t : string) :
  map_chars f (s ++ t) = map_chars f s ++ map_chars f t.
Proof. induction s as [| c s IH]; simpl; [reflexivity | rewrite IH; reflexivity]. Qed.

(** Splitting only looks at which characters are whitespace. *)
Lemma split_go_ext (f g : ascii -> ascii) (s cur : string) (in_sep : bool) :
  (forall c, is_space (f c) = is_space (g c)) ->
  (forall c, is_space (f c) = false -> f c = g c) ->
  split_go (map_chars f s) cur in_sep = split_go (map_chars g s) cur in_sep.
Proof.
  intros Hs He. revert cur in_sep. induction s as [| c s IH]; intros cur in_sep; simpl.
  - reflexivity.
  - rewrite <- (Hs c). destruct (is_space (f c)) eqn:E.
    + destruct in_sep; rewrite IH; reflexivity.
    + rewrite <- (He c E). apply IH.
Qed.

Lemma word_not_space (c : ascii) : is_word c = true -> is_space c = false.
Proof.
  destruct c as [[] [] [] [] [] [] [] []]; vm_compute; intros H; first [reflexivity | discriminate H].
Qed.

(** Replacing what is neither a word character nor whitespace, as the code
    does, leaves the same tokens as replacing every non-word character. *)
Lemma code_tokens_spec (text : string) :
  filter (fun word => (2 <? String.length word)%nat)
    (split_whitespace (replace_non_word_non_space (toLowerCase text)))
  = spec_tokens text.
Proof.
  unfold spec_tokens, split_whitespace, replace_non_word_non_space, toLowerCase.
  rewrite !map_chars_compose. f_equal. apply split_go_ext.
  - intros c. destruct (is_word (lower_char c)) eqn:W; simpl; [reflexivity |].
    destruct (is_space (lower_char c)) eqn:S; [rewrite S |]; reflexivity.
  - intros c. destruct (is_word (lower_char c)) eqn:W; simpl; [reflexivity |].
    destruct (is_space (lower_char c)) eqn:S; [rewrite S; discriminate | reflexivity].
Qed.

Lemma join_name_description (repo : Repo) :
  join " " [Some (name repo); repo_description repo] = spec_text repo.
Proof. unfold spec_text. destruct (repo_description repo); reflexivity. Qed.

Lemma extractKeywords_fold (repo : Repo) :
  extractKeywords repo
  = fold_left Set_add (spec_tokens (spec_text repo)) (fold_left Set_add (spec_topics repo) []).
Proof.
  unfold extractKeywords, Array_from, spec_topics.
  rewrite join_name_description, code_tokens_spec.
  destruct (topics repo); reflexivity.
Qed.

(** A space at the end of the text adds no token. *)
Lemma split_go_trailing_space (s cur : string) (in_sep : bool) :
  (in_sep = true -> cur = "") ->
  filter (fun token => (2 <? String.length token)%nat) (split_go (s ++ " ") cur in_sep)
  = filter (fun token => (2 <? String.length token)%nat) (split_go s cur in_sep).
Proof.
  revert cur in_sep. induction s as [| c s IH]; intros cur in_sep Hcur.
  - destruct in_sep; simpl.
    + reflexivity.
    + destruct (2 <? String.length cur)%nat; reflexivity.
  - simpl. destruct (is_space c).
    + destruct in_sep.
      * apply IH. exact Hcur.
      * simpl. rewrite IH by reflexivity. reflexivity.
    + apply IH. discriminate.
Qed.

Lemma spec_tokens_trailing_space (text : string) :
  spec_tokens (text ++ " ") = spec_tokens text.
Proof.
  unfold spec_tokens, split_whitespace, toLowerCase. rewrite !map_chars_app.
  apply split_go_trailing_space. discriminate.
Qed.

(** C5. The keywords are a set: the topics together with the tokens longer
    than two characters of the lowercased name and description, in which
    every non-word character was replaced by a space before splitting on
    whitespace. On the example they are cli, go, repo, cool and tool, and
    neither my nor a. *)
Theorem extractKeywords_set (repo : Repo) :
  (forall w, In w (extractKeywords repo)
             <-> In w (spec_topics repo) \/ In w (spec_tokens (spec_text repo)))
  /\ NoDup (extractKeywords repo)
  /\ extractKeywords example_repo = ["cli"; "go"; "repo"; "cool"; "tool"]
  /\ ~ In "my" (extractKeywords example_repo)
  /\ ~ In "a" (extractKeywords example_repo).
Proof.
  split; [| split; [| split; [| split]]].
  - intros w. rewrite extractKeywords_fold, !fold_Set_add_In. simpl. tauto.
  - rewrite extractKeywords_fold. apply fold_Set_add_NoDup, fold_Set_add_NoDup. constructor.
  - reflexivity.
  - vm_compute. intuition discriminate.
  - vm_compute. intuition discriminate.
Qed.

(** C10. A null description is read as the empty string: the keywords are
    those of the same repository with an empty description, namely the
    topics and the tokens of the lowercased name alone; [null] is a keyword
    only if a topic or the name supplies it. *)
Theorem extractKeywords_null_description (repo : Repo) :
  repo_description repo = None ->
  extractKeywords repo
  = extractKeywords {| name := name repo; full_name := full_name repo;
                       repo_description := Some ""; topics := topics repo |}
  /\ (forall w, In w (extractKeywords repo)
                <-> In w (spec_topics repo) \/ In w (spec_tokens (name repo)))
  /\ (In "null" (extractKeywords repo)
      -> In "null" (spec_topics repo) \/ In "null" (spec_tokens (name repo))).
Proof.
  intros Hnull.
  assert (Hset : forall w, In w (extractKeywords repo)
                           <-> In w (spec_topics repo) \/ In w (spec_tokens (name repo))).
  { intros w. rewrite extractKeywords_fold, !fold_Set_add_In.
    unfold spec_text. rewrite Hnull, append_empty_r, spec_tokens_trailing_space.
    simpl. tauto. }
  split; [| split].
  - unfold extractKeywords. simpl. rewrite Hnull. reflexivity.
  - exact Hset.
  - apply Hset.
Qed.

Lemma extractKeywords_null_description_witness :
  extractKeywords {| name := "null-safe Router"; full_name := "octo/router";
                     repo_description := None; topics := Some ["cli"] |}
  = extractKeywords {| name := "null-safe Router"; full_name := "octo/router";
                       repo_description := Some ""; topics := Some ["cli"] |}
  /\ extractKeywords {| name := "Router"; full_name := "octo/router";
                        repo_description := None; topics := Some ["cli"] |}
     = ["cli"; "router"].
Proof.
  split.
  - destruct (extractKeywords_null_description
                {| name := "null-safe Router"; full_name := "octo/router";
                   repo_description := None; topics := Some ["cli"] |} eq_refl)
      as (H & _ & _).
    exact H.
  - reflexivity.
Defined.

End Keywords.

(** ** The stable sort *)

Module Sorting.
Import JS Spec Binary64.

Local Open Scope float_scope.

Section Generic.
Context {A : Type}.
Variable comparefn : A -> A -> float.

Lemma insert_perm (x : A) (l : list A) : Permutation (insert comparefn x l) (x :: l).
Proof.
  induction l as [| y l IH]; simpl.
  - reflexivity.
  - destruct (0 <? comparefn x y).
    + rewrite IH. apply perm_swap.
    + reflexivity.
Qed.

Lemma sort_perm (l : list A) : Permutation (sort comparefn l) l.
Proof.
  induction l as [| x l IH]; simpl.
  - reflexivity.
  - rewrite insert_perm. apply perm_skip, IH.
Qed.

End Generic.

Lemma insert_map {A B} (f : B -> A) (comparefn : A -> A -> float) (x : B) (l : list B) :
  insert comparefn (f x) (map f l) = map f (insert (fun a b => comparefn (f a) (f b)) x l).
Proof.
  induction l as [| y l IH]; simpl.
  - reflexivity.
  - destruct (0 <? comparefn (f x) (f y)); simpl; [rewrite IH |]; reflexivity.
Qed.

Lemma sort_map {A B} (f : B -> A) (comparefn : A -> A -> float) (l : list B) :
  sort comparefn (map f l) = map f (sort (fun a b => comparefn (f a) (f b)) l).
Proof.
  induction l as [| x l IH]; simpl.
  - reflexivity.
  - rewrite IH. apply insert_map.
Qed.

(** Sorting by descending key, on elements tagged with their position. *)
Section Descending.
Context {A : Type}.
Variable key : A -> float.
Variable tag : A -> nat.

Let comparefn (a b : A) : float := key b - key a.

Let above (x y : A) : Prop :=
  (key y <? key x) = true \/ (key x = key y /\ (tag x < tag y)%nat).

Lemma above_trans (x y z : A) : above x y -> above y z -> above x z.
Proof.
  unfold above. intros [Hxy | [Exy Txy]] [Hyz | [Eyz Tyz]].
  - left. eapply ltb_trans; eassumption.
  - left. rewrite <- Eyz. exact Hxy.
  - left. rewrite Exy. exact Hyz.
  - right. split; [congruence | lia].
Qed.

Lemma insert_sorted (x : A) (l : list A) :
  canonical (key x) -> Forall (fun y => canonical (key y)) l ->
  Forall (fun y => (tag x < tag y)%nat) l ->
  StronglySorted above l ->
  StronglySorted above (insert comparefn x l).
Proof.
  intros Cx Cl Tl Sl. induction l as [| y l IH]; simpl.
  - repeat constructor.
  - inversion Cl as [| ? ? Cy Cl']; subst.
    inversion Tl as [| ? ? Ty Tl']; subst.
    inversion Sl as [| ? ? Sl' Fy]; subst.
    unfold comparefn at 1. rewrite sub_pos_iff_lt.
    destruct (key x <? key y) eqn:E.
    + constructor; [apply IH; assumption |].
      apply (Permutation_Forall (x := x :: l)).
      * symmetry. apply insert_perm.
      * constructor; [left; exact E | exact Fy].
    + assert (Hxy : above x y).
      { destruct Cx as [Cx1 Cx2], Cy as [Cy1 Cy2].
        destruct (ltb_total (key x) (key y) Cx1 Cx2 Cy1 Cy2 E) as [H | H].
        - left. exact H.
        - right. split; assumption. }
      constructor; [exact Sl |].
      constructor; [exact Hxy |].
      rewrite Forall_forall in Fy |- *. intros z Hz.
      apply above_trans with (1 := Hxy). apply Fy, Hz.
Qed.

Lemma sort_sorted (l : list A) :
  Forall (fun y => canonical (key y)) l ->
  StronglySorted (fun a b => (tag a < tag b)%nat) l ->
  StronglySorted above (sort comparefn l).
Proof.
  intros Cl Tl. induction l as [| x l IH]; simpl.
  - constructor.
  - inversion Cl as [| ? ? Cx Cl']; subst.
    inversion Tl as [| ? ? Tl' Fx]; subst.
    apply insert_sorted.
    + exact Cx.
    + apply (Permutation_Forall (x := l)); [symmetry; apply sort_perm | exact Cl'].
    + apply (Permutation_Forall (x := l)); [symmetry; apply sort_perm | exact Fx].
    + apply IH; assumption.
Qed.

End Descending.

Lemma StronglySorted_map {A B} (f : A -> B) (R : B -> B -> Prop) (l : list A) :
  StronglySorted (fun a b => R (f a) (f b)) l -> StronglySorted R (map f l).
Proof.
  induction 1 as [| a l Hs IH Hf]; simpl; constructor.
  - exact IH.
  - rewrite Forall_forall in Hf |- *. intros b Hb.
    apply in_map_iff in Hb as (b' & <- & Hb'). apply Hf, Hb'.
Qed.

Lemma StronglySorted_unmap {A B} (f : A -> B) (R : B -> B -> Prop) (l : list A) :
  StronglySorted R (map f l) -> StronglySorted (fun a b => R (f a) (f b)) l.
Proof.
  induction l as [| a l IH]; simpl; intros H; constructor; inversion H as [| ? ? Hs Hf]; subst.
  - apply IH, Hs.
  - rewrite Forall_forall in Hf |- *. intros b Hb. apply Hf, in_map, Hb.
Qed.

Lemma StronglySorted_weaken {A} (P : A -> Prop) (R R' : A -> A -> Prop) (l : list A) :
  (forall a b, P a -> P b -> R a b -> R' a b) ->
  Forall P l -> StronglySorted R l -> StronglySorted R' l.
Proof.
  intros Himp Hp Hs. induction Hs as [| a l Hs IH Hf].
  - constructor.
  - inversion Hp as [| ? ? Pa Pl]; subst. constructor; [apply IH, Pl |].
    rewrite Forall_forall in Hf, Pl |- *. intros b Hb. apply Himp; auto.
Qed.

Lemma seq_sorted (n start : nat) : StronglySorted lt (seq start n).
Proof.
  revert start. induction n as [| n IH]; intros start; simpl; constructor.
  - apply IH.
  - rewrite Forall_forall. intros i Hi. apply in_seq in Hi. lia.
Qed.

(** Pairing a list with its positions. *)
Lemma combine_seq_nth {A} (d : A) (l : list A) (start : nat) :
  Forall (fun p => snd p = nth (fst p - start) l d /\ (start <= fst p)%nat)
    (combine (seq start (List.length l)) l).
Proof.
  revert start. induction l as [| x l IH]; intros start; simpl; constructor.
  - simpl. rewrite Nat.sub_diag. split; [reflexivity | lia].
  - specialize (IH (S start)). rewrite Forall_forall in IH |- *.
    intros [i y] Hin. destruct (IH _ Hin) as [E Hle]. simpl in *. split; [| lia].
    rewrite E. replace (i - start)%nat with (S (i - S start)) by lia. reflexivity.
Qed.

Lemma combine_seq_fst {A} (l : list A) (start : nat) :
  map fst (combine (seq start (List.length l)) l) = seq start (List.length l).
Proof.
  revert start. induction l as [| x l IH]; intros start; simpl; [| rewrite IH]; reflexivity.
Qed.

Lemma combine_seq_snd {A} (l : list A) (start : nat) :
  map snd (combine (seq start (List.length l)) l) = l.
Proof.
  revert start. induction l as [| x l IH]; intros start; simpl; [| rewrite IH]; reflexivity.
Qed.

(** The sort of a list by descending canonical key, read off the positions
    of the input. *)
Lemma sort_descending_stable {A} (key : A -> float) (d : A) (l : list A) :
  Forall (fun y => canonical (key y)) l ->
  exists order : list nat,
    Permutation order (seq 0 (List.length l))
    /\ sort (fun a b => key b - key a) l = map (fun i => nth i l d) order
    /\ StronglySorted (precedes (fun i => key (nth i l d))) order.
Proof.
  intros Cl.
  set (tagged := combine (seq 0 (List.length l)) l).
  set (sorted := sort (fun a b : nat * A => key (snd b) - key (snd a)) tagged).
  assert (Hperm : Permutation sorted tagged) by apply sort_perm.
  assert (Hnth : Forall (fun p : nat * A => snd p = nth (fst p) l d) sorted).
  { apply (Permutation_Forall (x := tagged)); [symmetry; exact Hperm |].
    pose proof (combine_seq_nth d l 0) as H. rewrite Forall_forall in H |- *.
    intros p Hp. destruct (H p Hp) as [E _]. rewrite Nat.sub_0_r in E. exact E. }
  exists (map fst sorted). split; [| split].
  - rewrite <- (combine_seq_fst l 0). apply Permutation_map, Hperm.
  - rewrite <- (combine_seq_snd l 0) at 1. fold tagged.
    rewrite (sort_map snd (fun a b => key b - key a)). fold sorted.
    rewrite map_map. apply map_ext_in. intros p Hp.
    rewrite Forall_forall in Hnth. apply Hnth, Hp.
  - apply StronglySorted_map.
    apply StronglySorted_weaken
      with (P := fun p : nat * A => snd p = nth (fst p) l d)
           (R := fun x y : nat * A =>
                   (key (snd y) <? key (snd x)) = true
                   \/ (key (snd x) = key (snd y) /\ (fst x < fst y)%nat)).
    + intros a b Ea Eb. unfold precedes. rewrite <- Ea, <- Eb. tauto.
    + exact Hnth.
    + apply (sort_sorted (fun p : nat * A => key (snd p)) fst tagged).
      * unfold tagged. rewrite Forall_forall in Cl |- *. intros p Hp.
        apply Cl. rewrite <- (combine_seq_snd l 0). apply in_map, Hp.
      * apply (StronglySorted_unmap fst lt).
        unfold tagged. rewrite combine_seq_fst. apply seq_sorted.
Qed.

(** A list has one arrangement sorted by an asymmetric relation. *)
Lemma sorted_perm_unique {A} (R : A -> A -> Prop) (l1 l2 : list A) :
  (forall a b, R a b -> R b a -> False) ->
  Permutation l1 l2 -> StronglySorted R l1 -> StronglySorted R l2 -> l1 = l2.
Proof.
  intros Hasym. revert l2. induction l1 as [| a l1 IH]; intros l2 Hperm H1 H2.
  - apply Permutation_nil in Hperm. subst. reflexivity.
  - destruct l2 as [| b l2]; [apply Permutation_sym, Permutation_nil in Hperm; discriminate |].
    inversion H1 as [| ? ? S1 F1]; subst. inversion H2 as [| ? ? S2 F2]; subst.
    rewrite Forall_forall in F1, F2.
    assert (E : a = b).
    { assert (Ha : In a (b :: l2)) by (apply (Permutation_in _ Hperm); left; reflexivity).
      assert (Hb : In b (a :: l1))
        by (apply (Permutation_in _ (Permutation_sym Hperm)); left; reflexivity).
      destruct Ha as [Ha | Ha]; [congruence |].
      destruct Hb as [Hb | Hb]; [congruence |].
      exfalso. apply (Hasym a b); [apply F1, Hb | apply F2, Ha]. }
    subst b. f_equal. apply IH; try assumption.
    apply Permutation_cons_inv with (a := a). exact Hperm.
Qed.

Lemma ltb_asym (x y : float) : (x <? y) = true -> (y <? x) = true -> False.
Proof.
  intros Hxy Hyx. pose proof (ltb_trans x y x Hxy Hyx) as H.
  rewrite ltb_irrefl in H. discriminate H.
Qed.

Lemma precedes_asym (sim : nat -> float) (i j : nat) :
  precedes sim i j -> precedes sim j i -> False.
Proof.
  unfold precedes. intros [Hij | [Eij Tij]] [Hji | [Eji Tji]].
  - exact (ltb_asym _ _ Hji Hij).
  - rewrite Eji, ltb_irrefl in Hij. discriminate Hij.
  - rewrite Eij, ltb_irrefl in Hji. discriminate Hji.
  - lia.
Qed.

End Sorting.

(** ** Runs of the methods *)

Module Runs.
Import JS SmartRouter Trace.

Lemma replay_app (evs1 evs2 : list Event) (o : object RepositoryRecord) :
  replay (evs1 ++ evs2) o = replay evs2 (replay evs1 o).
Proof.
  revert o. induction evs1 as [| ev evs1 IH]; intros o; simpl; [reflexivity |].
  destruct ev; apply IH.
Qed.

Lemma all_succeed_app (w : World) (h evs1 evs2 : list Event) :
  all_succeed w h (evs1 ++ evs2)
  <-> all_succeed w h evs1 /\ all_succeed w (h ++ evs1) evs2.
Proof.
  revert h. induction evs1 as [| ev evs1 IH]; intros h; simpl.
  - rewrite app_nil_r. tauto.
  - rewrite IH, <- app_assoc. simpl. tauto.
Qed.

Lemma all_succeed_console (w : World) (h logs : list Event) :
  Forall is_console logs -> all_succeed w h logs.
Proof.
  intros Hl. revert h. induction Hl as [| ev logs Hev _ IH]; intros h; simpl; [exact I |].
  split; [destruct ev; simpl in Hev; tauto | apply IH].
Qed.

Lemma run_ret {A} (w : World) (a : A) : run_spec w (ret a).
Proof.
  intros st out st' H. inversion H; subst. exists [].
  rewrite app_nil_r. simpl. auto.
Qed.

Lemma run_bind {A B} (w : World) (m : M A) (k : A -> M B) :
  run_spec w m -> (forall a, run_spec w (k a)) -> run_spec w (bind m k).
Proof.
  intros Hm Hk st out st' Hrun. unfold bind in Hrun.
  destruct (m st) as [[a | e] st1] eqn:Em.
  - destruct (Hm _ _ _ Em) as (evs1 & E1 & O1 & V1 & R1 & End1).
    destruct (Hk a _ _ _ Hrun) as (evs2 & E2 & O2 & V2 & R2 & End2).
    exists (evs1 ++ evs2).
    rewrite E2, E1, app_assoc, O2, O1, V2, V1, R2, R1, replay_app.
    repeat split; try reflexivity.
    simpl in End1. rewrite E1 in End2. destruct out as [b | e]; simpl in *.
    + apply all_succeed_app. split; assumption.
    + destruct End2 as (pre & c & logs & -> & Hpre & Hf & Hl).
      exists (evs1 ++ pre), c, logs. rewrite <- !app_assoc in *.
      repeat split; try assumption.
      apply all_succeed_app. split; assumption.
  - inversion Hrun; subst. destruct (Hm _ _ _ Em) as (evs1 & E1 & O1 & V1 & R1 & End1).
    exists evs1. repeat split; assumption.
Qed.

Lemma run_for_of {A} (w : World) (xs : list A) (body : A -> M unit) :
  (forall x, run_spec w (body x)) -> run_spec w (for_of xs body).
Proof.
  intros Hbody. induction xs as [| x xs IH]; simpl.
  - apply run_ret.
  - apply run_bind; [apply Hbody | intros _; exact IH].
Qed.

Lemma request_run {A} (c : Call) (reply : list Event -> exn + A) (st : State) :
  request c reply st
  = (match reply (events st) with inl e => Throw e | inr a => Ok a end,
     {| this := this st; events := events st ++ [Request c] |}).
Proof. unfold request, bind, emit, await. simpl. destruct (reply (events st)); reflexivity. Qed.

Lemma run_request {A} (w : World) (c : Call) (reply : list Event -> exn + A) :
  (forall h, failure w h c = rejection (reply h)) -> run_spec w (request c reply).
Proof.
  intros Hf st out st' H. rewrite request_run in H. inversion H; subst; clear H.
  exists [Request c]. simpl. repeat split.
  specialize (Hf (events st)). destruct (reply (events st)) as [e | a]; simpl in *.
  - exists [], c, []. rewrite app_nil_r. repeat split; auto.
  - auto.
Qed.

(** [createEmbedding] sends one request and ends as its reply settles;
    a failure is logged once. *)
Lemma createEmbedding_run (w : World) (text : string) (st : State) :
  createEmbedding w text st
  = let init := embeddings_request (voyageHeaders (this st)) text in
    let sent := events st ++ [Request (fetch embeddings_url init)] in
    match settle (reply_fetch w (events st) embeddings_url init) with
    | Ok v => (Ok v, {| this := this st; events := sent |})
    | Throw e =>
        (Throw e,
         {| this := this st;
            events := sent ++ [ConsoleError "Error creating embedding:" e] |})
    end.
Proof.
  unfold createEmbedding, try_catch, get_this. cbv zeta.
  unfold bind at 1 2. rewrite request_run.
  destruct (reply_fetch w (events st) embeddings_url
              (embeddings_request (voyageHeaders (this st)) text)) as [e | response];
    simpl; [reflexivity |].
  unfold bind, await.
  destruct (json_promise response) as [e | [| error data]]; simpl; try reflexivity.
  - destruct (ok response); reflexivity.
  - destruct (ok response); simpl; [| reflexivity].
    destruct data as [[| first rest] |]; reflexivity.
Qed.

Lemma run_createEmbedding (w : World) (text : string) : run_spec w (createEmbedding w text).
Proof.
  intros st out st' H. rewrite createEmbedding_run in H. cbv zeta in H.
  destruct (settle _) as [v | e] eqn:Es; inversion H; subst; clear H; simpl.
  - exists [Request (fetch embeddings_url (embeddings_request (voyageHeaders (this st)) text))].
    simpl. rewrite Es. auto 10.
  - eexists. rewrite <- app_assoc. repeat split.
    exists [], (fetch embeddings_url (embeddings_request (voyageHeaders (this st)) text)),
      [ConsoleError "Error creating embedding:" e].
    rewrite app_nil_r. simpl. rewrite Es. repeat split; auto.
    repeat constructor.
Qed.

Lemma run_assign (w : World) (key : string) (r : RepositoryRecord) :
  run_spec w (assign_repository key r).
Proof.
  intros st out st' H. inversion H; subst; clear H.
  exists [Assign key r]. simpl. auto 10.
Qed.

Lemma run_logged {A} (w : World) (label : string) (m : M A) :
  run_spec w m ->
  run_spec w (try_catch m (fun error => console_error label error ;;; throw error)).
Proof.
  intros Hm st out st' H. unfold try_catch in H.
  destruct (m st) as [[a | e] st1] eqn:Em.
  - inversion H; subst. apply (Hm _ _ _ Em).
  - destruct (Hm _ _ _ Em) as (evs & E & O & V & R & pre & c & logs & -> & Hpre & Hf & Hl).
    inversion H; subst; clear H. simpl.
    exists ((pre ++ Request c :: logs) ++ [ConsoleError label e]).
    rewrite E, <- !app_assoc. repeat split; try assumption.
    + rewrite app_assoc, replay_app, <- R. reflexivity.
    + exists pre, c, (logs ++ [ConsoleError label e]). simpl. repeat split; try assumption.
      apply Forall_app. split; [exact Hl | repeat constructor].
Qed.

Lemma run_processRepositories (w : World) (repos : list Repo) :
  run_spec w (processRepositories w repos).
Proof.
  apply run_for_of. intros repo. apply run_bind.
  - apply run_createEmbedding.
  - intros embedding. apply run_assign.
Qed.

Lemma run_fetchUserRepositories (w : World) : run_spec w (fetchUserRepositories w).
Proof.
  apply run_bind.
  - apply run_request. reflexivity.
  - apply run_processRepositories.
Qed.

Lemma run_fetchOrgRepositories (w : World) (orgName : string) :
  run_spec w (fetchOrgRepositories w orgName).
Proof.
  apply run_bind.
  - apply run_request. reflexivity.
  - apply run_processRepositories.
Qed.

Lemma run_initialize (w : World) : run_spec w (initialize w).
Proof.
  apply run_logged. apply run_bind.
  - apply run_request. reflexivity.
  - intros orgs. apply run_bind.
    + apply run_fetchUserRepositories.
    + intros _. apply run_for_of. intros org. apply run_fetchOrgRepositories.
Qed.

End Runs.

(** ** Ranking *)

Module Matches.
Import JS SmartRouter Spec Trace Examples Examples2.

Local Open Scope string_scope.
Local Open Scope list_scope.

Lemma findMatches_run (w : World) (description : string) (st : State) :
  findMatches w description st
  = match createEmbedding w description st with
    | (Ok q, st1) =>
        (Ok (map repo (sort by_similarity
                         (map (score q) (Object_entries (repositories (this st1)))))), st1)
    | (Throw e, st1) => (Throw e, st1)
    end.
Proof.
  unfold findMatches, bind, get_this, ret.
  destruct (createEmbedding w description st) as [[q | e] st1]; reflexivity.
Qed.

Lemma createEmbedding_this (w : World) (text : string) (st : State) :
  this (snd (createEmbedding w text st)) = this st.
Proof.
  rewrite Runs.createEmbedding_run. cbv zeta. destruct (settle _); reflexivity.
Qed.

Lemma findMatches_this (w : World) (description : string) (st : State) :
  this (snd (findMatches w description st)) = this st.
Proof.
  rewrite findMatches_run. pose proof (createEmbedding_this w description st) as H.
  destruct (createEmbedding w description st) as [[q | e] st1]; exact H.
Qed.

Lemma score_repo (q : list float) (entries : list (string * RepositoryRecord)) :
  map repo (map (score q) entries) = map fst entries.
Proof. rewrite map_map. reflexivity. Qed.

(** The comparator of [findMatches] is positive exactly when its second
    argument has the greater similarity: the difference of two numbers
    never rounds to zero or to the wrong sign. *)
Theorem by_similarity_sign (a b : Match) :
  (0 <? by_similarity a b)%float = (similarity a <? similarity b)%float.
Proof. unfold by_similarity. apply Binary64.sub_pos_iff_lt. Qed.

(** A mapping has one ranking: whichever stable sort an engine runs, the
    result is the same. *)
Lemma ranked_unique (entries : list (string * RepositoryRecord))
    (sim : RepositoryRecord -> float) (names1 names2 : list string) :
  ranked entries sim names1 -> ranked entries sim names2 -> names1 = names2.
Proof.
  intros (order1 & P1 & -> & S1) (order2 & P2 & -> & S2).
  f_equal.
  apply (Sorting.sorted_perm_unique
           (precedes (fun i => sim (snd (nth i entries no_entry)))) order1 order2).
  - apply Sorting.precedes_asym.
  - rewrite P1, P2. reflexivity.
  - exact S1.
  - exact S2.
Qed.

(* Two keys that agree on every entry give the same ranking. *)
Lemma ranked_ext (entries : list (string * RepositoryRecord))
    (sim sim' : RepositoryRecord -> float) (names : list string) :
  Forall (fun entry => sim (snd entry) = sim' (snd entry)) entries ->
  ranked entries sim names -> ranked entries sim' names.
Proof.
  intros Hagree (order & Hperm & Hnames & Hsorted).
  exists order. split; [exact Hperm | split; [exact Hnames |]].
  assert (Hin : forall i, (i < List.length entries)%nat ->
                          sim (snd (nth i entries no_entry)) = sim' (snd (nth i entries no_entry))).
  { intros i Hi. rewrite Forall_forall in Hagree. apply Hagree, nth_In, Hi. }
  eapply Sorting.StronglySorted_weaken
    with (P := fun i => (i < List.length entries)%nat); [| | exact Hsorted].
  - intros i j Hi Hj. unfold precedes. rewrite (Hin i Hi), (Hin j Hj). tauto.
  - rewrite Forall_forall. intros i Hi.
    apply (Permutation_in _ Hperm), in_seq in Hi. lia.
Qed.

(* On vectors of one dimension the code computes the guarded cosine. *)
Lemma similarity_guarded_cosine (a b : list float) :
  List.length a = List.length b ->
  calculateCosineSimilarity a b = guarded_cosine a b.
Proof.
  intros Hlen. rewrite (Cosine.calculateCosineSimilarity_quotient a b Hlen).
  unfold guarded_cosine, JS.logical_or, ToBoolean.
  destruct (is_nan (cosine a b) || is_zero (cosine a b)); reflexivity.
Qed.

(** C2 (amended). When the description embeds as [q], [findMatches]
    returns the stored names ranked by the similarity the code computes:
    a name comes before another when its similarity is strictly greater,
    or when the two similarities are equal and it comes first in the
    iteration order of the mapping. When the stored embeddings have the
    dimension of [q], that similarity is the cosine of the stored
    embedding to [q] where the quotient is a non-zero number, and [0]
    where the quotient is [NaN] or a zero: the names are ranked by the
    guarded cosine. *)
Theorem findMatches_ranked (w : World) (description : string) (st st1 : State)
    (q : list float) :
  createEmbedding w description st = (Ok q, st1) ->
  exists names,
    findMatches w description st = (Ok names, st1)
    /\ ranked (Object_entries (repositories (this st)))
         (fun r => calculateCosineSimilarity q (embedding r)) names
    /\ (same_dimension q (Object_entries (repositories (this st))) ->
        ranked (Object_entries (repositories (this st)))
          (fun r => guarded_cosine q (embedding r)) names).
Proof.
  intros Hq. rewrite findMatches_run, Hq. eexists. split; [reflexivity |].
  pose proof (createEmbedding_this w description st) as Hthis.
  rewrite Hq in Hthis. simpl in Hthis. rewrite Hthis.
  set (entries := Object_entries (repositories (this st))).
  assert (Hranked : ranked entries (fun r => calculateCosineSimilarity q (embedding r))
                      (map repo (sort by_similarity (map (score q) entries)))).
  { destruct (Sorting.sort_descending_stable similarity (score q no_entry)
                (map (score q) entries)) as (order & Hperm & Hsort & Hsorted).
    { rewrite Forall_forall. intros m Hm. apply in_map_iff in Hm as (entry & <- & _).
      apply Cosine.similarity_canonical. }
    exists order. split; [| split].
    - rewrite length_map in Hperm. exact Hperm.
    - change by_similarity with (fun a b : Match => (similarity b - similarity a)%float).
      rewrite Hsort, map_map. apply map_ext. intros i. rewrite map_nth. reflexivity.
    - eapply Sorting.StronglySorted_weaken with (P := fun _ => True); [| | exact Hsorted].
      + intros i j _ _. unfold precedes. rewrite !map_nth. simpl. tauto.
      + rewrite Forall_forall. auto. }
  split; [exact Hranked |].
  intros Hdim. apply (ranked_ext entries (fun r => calculateCosineSimilarity q (embedding r)));
    [| exact Hranked].
  unfold same_dimension in Hdim. rewrite Forall_forall in Hdim |- *.
  intros entry Hin. apply similarity_guarded_cosine. symmetry. apply Hdim, Hin.
Qed.

Lemma findMatches_ranked_witness :
  exists names,
    findMatches quiet_world "router" loaded
    = (Ok names, snd (createEmbedding quiet_world "router" loaded))
    /\ ranked (Object_entries (repositories (this loaded)))
         (fun r => calculateCosineSimilarity [1; 0]%float (embedding r)) names
    /\ (same_dimension [1; 0]%float (Object_entries (repositories (this loaded))) ->
        ranked (Object_entries (repositories (this loaded)))
          (fun r => guarded_cosine [1; 0]%float (embedding r)) names).
Proof.
  apply (findMatches_ranked quiet_world "router" loaded
           (snd (createEmbedding quiet_world "router" loaded)) [1; 0]%float).
  reflexivity.
Defined.

(** C2 as the specification states it fails: against the query
    [1e200, 0] the stored vector [1e200, 0] is parallel and [0, 1e200]
    is orthogonal, yet the squared norms overflow, the code scores both
    [0], and the orthogonal one is returned first. *)
Lemma findMatches_overflow_counterexample : ~ ranked_by_cosine.
Proof.
  intros H.
  assert (Hdim : same_dimension [1e200; 0]%float (Object_entries (repositories (this huge)))).
  { repeat constructor. }
  destruct (H overflow_world "router" huge
              (snd (createEmbedding overflow_world "router" huge))
              [1e200; 0]%float ["octo/orth"; "octo/par"] eq_refl eq_refl Hdim)
    as (order & Hperm & Hnames & Hsorted).
  assert (Hin : forall i, In i order -> i = 0%nat \/ i = 1%nat).
  { intros i Hi. apply (Permutation_in _ Hperm) in Hi. simpl in Hi.
    destruct Hi as [<- | [<- | []]]; auto. }
  destruct order as [| i [| j [| k order]]]; try discriminate Hnames.
  simpl in Hnames. inversion Hnames as [[Hi Hj]].
  assert (i = 0%nat).
  { destruct (Hin i (or_introl eq_refl)) as [-> | ->]; [reflexivity | discriminate Hi]. }
  assert (j = 1%nat).
  { destruct (Hin j (or_intror (or_introl eq_refl))) as [-> | ->];
      [discriminate Hj | reflexivity]. }
  subst i j. inversion Hsorted as [| ? ? _ Hfirst]; subst.
  inversion Hfirst as [| ? ? Hp _]; subst.
  destruct Hp as [Hlt | [Heq _]].
  - vm_compute in Hlt. discriminate Hlt.
  - apply (f_equal is_nan) in Heq. vm_compute in Heq. discriminate Heq.
Qed.

(** C8. [findMatches] leaves the router as it found it: the mapping, every
    record in it, and the other members; so does any sequence of queries.
    It assigns nothing. *)
Theorem findMatches_frame (w : World) (description : string) (st : State) :
  this (snd (findMatches w description st)) = this st
  /\ (forall key,
        get (repositories (this (snd (findMatches w description st)))) key
        = get (repositories (this st)) key)
  /\ (forall descriptions,
        this (fold_left (fun s d => snd (findMatches w d s)) descriptions st) = this st)
  /\ (exists evs,
        events (snd (findMatches w description st)) = events st ++ evs
        /\ Forall (fun ev => is_assign ev = false) evs).
Proof.
  split; [apply findMatches_this | split; [| split]].
  - intros key. rewrite findMatches_this. reflexivity.
  - intros descriptions. revert st.
    induction descriptions as [| d descriptions IH]; intros st; simpl; [reflexivity |].
    rewrite IH. apply findMatches_this.
  - rewrite findMatches_run, Runs.createEmbedding_run. cbv zeta.
    destruct (settle _) as [v | e]; simpl.
    + eexists. split; [reflexivity | repeat constructor].
    + eexists. rewrite <- app_assoc. split; [reflexivity | repeat constructor].
Qed.

(** C9. The names [findMatches] returns are the keys of the mapping in
    another order: no key is dropped, whatever its similarity, and none is
    added. The keys of an object are distinct, so each stored name occurs
    once in the result and any other name does not occur. *)
Theorem findMatches_permutation (w : World) (description : string) (st st' : State)
    (names : list string) :
  findMatches w description st = (Ok names, st') ->
  NoDup (keys (repositories (this st))) ->
  Permutation names (keys (repositories (this st)))
  /\ (forall name,
        count_occ string_dec names name
        = if in_dec string_dec name (keys (repositories (this st))) then 1 else 0).
Proof.
  intros Hrun Hkeys.
  assert (Hperm : Permutation names (keys (repositories (this st)))).
  { rewrite findMatches_run in Hrun.
    pose proof (createEmbedding_this w description st) as Hthis.
    destruct (createEmbedding w description st) as [[q | e] st1]; [| discriminate Hrun].
    inversion Hrun; subst; clear Hrun. simpl in Hthis. rewrite Hthis.
    unfold keys. rewrite <- (score_repo q).
    apply Permutation_map, Sorting.sort_perm. }
  split; [exact Hperm |].
  intros name. rewrite (Permutation_count_occ string_dec) in Hperm. rewrite Hperm.
  destruct (in_dec string_dec name (keys (repositories (this st)))) as [Hin | Hout].
  - apply NoDup_count_occ'; assumption.
  - apply count_occ_not_In, Hout.
Qed.

Lemma findMatches_permutation_witness :
  Permutation ["octo/c"; "octo/b"; "octo/d"; "octo/a"] (keys (repositories (this loaded)))
  /\ (forall name,
        count_occ string_dec ["octo/c"; "octo/b"; "octo/d"; "octo/a"] name
        = if in_dec string_dec name (keys (repositories (this loaded))) then 1 else 0).
Proof.
  apply (findMatches_permutation quiet_world "router" loaded
           (snd (createEmbedding quiet_world "router" loaded))).
  - reflexivity.
  - repeat constructor; simpl; intuition discriminate.
Defined.

End Matches.

(** ** Construction, embedding requests and initialization *)

Module Lifecycle.
Import JS SmartRouter Spec Trace Examples Examples2.

Local Open Scope string_scope.
Local Open Scope list_scope.

(** C3 (amended). Construction never touches the network: the history is
    returned as it was given. It throws the configuration error when a
    credential is unset or set to the empty string, and succeeds when both
    are set to non-empty strings. *)
Theorem constructor_fails_fast (w : World) (history : list Event) :
  snd (constructor w history) = history
  /\ ((process_env w "GITHUB_TOKEN" = None \/ process_env w "GITHUB_TOKEN" = Some ""
       \/ process_env w "VOYAGE_API_KEY" = None \/ process_env w "VOYAGE_API_KEY" = Some "") ->
      fst (constructor w history) = Throw configuration_error)
  /\ (forall token key,
        process_env w "GITHUB_TOKEN" = Some token -> token <> "" ->
        process_env w "VOYAGE_API_KEY" = Some key -> key <> "" ->
        fst (constructor w history)
        = Ok {| octokit := {| auth := Some token |};
                repositories := [];
                voyageHeaders := [("Authorization", "Bearer " ++ key)%string;
                                  ("Content-Type", "application/json")] |}).
Proof.
  unfold constructor. split; [| split].
  - destruct (missing _ || missing _); reflexivity.
  - intros [H | [H | [H | H]]]; rewrite H; simpl; rewrite ?orb_true_r; reflexivity.
  - intros token key Ht Hnt Hk Hnk. rewrite Ht, Hk. simpl.
    apply String.eqb_neq in Hnt, Hnk. rewrite Hnt, Hnk. reflexivity.
Qed.

Lemma constructor_fails_fast_witness :
  fst (constructor empty_token_world []) = Throw configuration_error
  /\ fst (constructor quiet_world [])
     = Ok {| octokit := {| auth := Some "secret" |};
             repositories := [];
             voyageHeaders := [("Authorization", "Bearer secret");
                               ("Content-Type", "application/json")] |}.
Proof.
  split.
  - destruct (constructor_fails_fast empty_token_world []) as (_ & H & _).
    apply H. right. left. reflexivity.
  - destruct (constructor_fails_fast quiet_world []) as (_ & _ & H).
    apply (H "secret" "secret"); first [reflexivity | discriminate].
Defined.

(** On page load with a credential unset or empty the handler sends no
    request: it logs the configuration error and leaves the form alone. *)
Theorem page_load_without_credentials (w : World) (history : list Event) :
  (process_env w "GITHUB_TOKEN" = None \/ process_env w "GITHUB_TOKEN" = Some ""
   \/ process_env w "VOYAGE_API_KEY" = None \/ process_env w "VOYAGE_API_KEY" = Some "") ->
  onDOMContentLoaded w history
  = (None, history ++ [ConsoleError "Failed to initialize SmartRouter:" configuration_error]).
Proof.
  intros H. unfold onDOMContentLoaded, constructor.
  assert (E : missing (process_env w "GITHUB_TOKEN")
              || missing (process_env w "VOYAGE_API_KEY") = true).
  { destruct H as [H | [H | [H | H]]]; rewrite H; simpl; rewrite ?orb_true_r; reflexivity. }
  rewrite E. reflexivity.
Qed.

Lemma page_load_without_credentials_witness :
  onDOMContentLoaded empty_token_world []
  = (None, [] ++ [ConsoleError "Failed to initialize SmartRouter:" configuration_error]).
Proof.
  apply (page_load_without_credentials empty_token_world []).
  right. left. reflexivity.
Defined.

(** C3 as the specification states it fails: with the token set to the
    empty string both credentials are present, and construction throws. *)
Lemma empty_token_counterexample : ~ constructed_when_present.
Proof.
  intros H. destruct (H empty_token_world []) as [_ Hok].
  destruct (Hok "" "secret" eq_refl eq_refl) as [router Hr].
  discriminate Hr.
Qed.

(** How [createEmbedding] fails. It sends exactly one request, whatever
    the reply, and leaves the router unchanged. A rejected request throws
    what it was rejected with. On a response without success status: a
    body that does not parse throws the parse error; the body [null]
    throws a [TypeError]; any other body throws an [Error] that carries
    the member [error.message] when that is truthy, and the generic
    message otherwise. *)
Theorem createEmbedding_failure (w : World) (text : string) (st : State) :
  let init := embeddings_request (voyageHeaders (this st)) text in
  let reply := reply_fetch w (events st) embeddings_url init in
  let out := fst (createEmbedding w text st) in
  let st' := snd (createEmbedding w text st) in
  this st' = this st
  /\ (exists logs,
        events st' = events st ++ Request (fetch embeddings_url init) :: logs
        /\ Forall is_console logs)
  /\ (forall e, reply = inl e -> out = Throw e)
  /\ (forall response,
        reply = inr response -> ok response = false ->
        match json_promise response with
        | inl e => out = Throw e
        | inr BodyNull => out = Throw (cannot_read "null" "error")
        | inr (BodyMembers error _) =>
            out = Throw (Error (if truthy (optional_message error)
                                then match optional_message error with
                                     | Some m => m
                                     | None => generic_failure
                                     end
                                else generic_failure))
        end).
Proof.
  cbv zeta. rewrite Runs.createEmbedding_run. cbv zeta.
  split; [| split; [| split]].
  - destruct (settle _); reflexivity.
  - destruct (settle _) as [v | e]; simpl.
    + exists []. split; [reflexivity | constructor].
    + eexists. rewrite <- app_assoc. split; [reflexivity | repeat constructor].
  - intros e ->. reflexivity.
  - intros response -> Hok. simpl. rewrite Hok.
    destruct (json_promise response) as [e | [| error data]]; try reflexivity.
    unfold or_else. destruct (optional_message error) as [m |]; simpl; [| reflexivity].
    destruct (truthy (Some m)); reflexivity.
Qed.

(** On a successful response [createEmbedding] returns the embedding of the
    first element of [data], after one request and without console
    output. *)
Theorem createEmbedding_success (w : World) (text : string) (st : State)
    (response : Response) (error : value) (first : EmbeddingObject)
    (rest : list EmbeddingObject) :
  reply_fetch w (events st) embeddings_url
    (embeddings_request (voyageHeaders (this st)) text) = inr response ->
  ok response = true ->
  json_promise response = inr (BodyMembers error (Some (first :: rest))) ->
  createEmbedding w text st
  = (Ok (object_embedding first),
     {| this := this st;
        events := events st ++ [Request (fetch embeddings_url
                                           (embeddings_request (voyageHeaders (this st)) text))] |}).
Proof.
  intros Hreply Hok Hjson. rewrite Runs.createEmbedding_run. cbv zeta.
  rewrite Hreply. simpl. rewrite Hjson, Hok. reflexivity.
Qed.

Lemma createEmbedding_success_witness :
  createEmbedding quiet_world "router" fresh
  = (Ok [1; 0]%float,
     {| this := this fresh;
        events := events fresh
                  ++ [Request (fetch embeddings_url
                                 (embeddings_request (voyageHeaders (this fresh)) "router"))] |}).
Proof.
  apply (createEmbedding_success quiet_world "router" fresh
           (embeddings_response [1; 0]%float) None {| object_embedding := [1; 0]%float |} []);
    reflexivity.
Defined.

(** C4 as the specification states it fails: a response with status 502
    whose body is an HTML page holds no provider message, and the error
    thrown is the parse error of the body, not the generic one. *)
Lemma bad_gateway_counterexample : ~ provider_or_generic_message.
Proof.
  intros H. specialize (H gateway_world "router" fresh bad_gateway eq_refl eq_refl).
  vm_compute in H. discriminate H.
Qed.

(** C4. The defect at work. The response of a gateway has status 502 and
    an HTML page as body: it is not a success and holds no provider
    message, so the branch for a response that is not [ok] is to throw
    the generic error. The body is parsed before [ok] is looked at, and
    what [createEmbedding] logs and throws is the parse error. *)
Theorem createEmbedding_bad_gateway :
  ok bad_gateway = false
  /\ provider_message bad_gateway = None
  /\ createEmbedding gateway_world "router" fresh
     = (Throw (SyntaxError "Unexpected token '<' is not valid JSON"),
        {| this := this fresh;
           events :=
             [Request (fetch embeddings_url
                         (embeddings_request (voyageHeaders (this fresh)) "router"));
              ConsoleError "Error creating embedding:"
                (SyntaxError "Unexpected token '<' is not valid JSON")] |})
  /\ fst (createEmbedding gateway_world "router" fresh) <> Throw (Error generic_failure).
Proof.
  split; [reflexivity | split; [reflexivity | split; [reflexivity |]]].
  intros H. vm_compute in H. discriminate H.
Qed.

(** *** Initialization *)

Lemma get_set_same {V} (o : object V) (k : string) (v : V) : get (set o k v) k = Some v.
Proof.
  induction o as [| [k' v'] o IH]; simpl.
  - rewrite String.eqb_refl. reflexivity.
  - destruct (String.eqb k k') eqn:E; simpl; rewrite E; [reflexivity | exact IH].
Qed.

Lemma get_set_other {V} (o : object V) (k k' : string) (v : V) :
  k' <> k -> get (set o k v) k' = get o k'.
Proof.
  intros Hne. apply String.eqb_neq in Hne.
  induction o as [| [k0 v0] o IH]; simpl.
  - rewrite Hne. reflexivity.
  - destruct (String.eqb k k0) eqn:E; simpl.
    + apply String.eqb_eq in E. subst k0. rewrite Hne. reflexivity.
    + rewrite IH. reflexivity.
Qed.

Lemma replay_get_untouched (evs : list Event) (o : object RepositoryRecord) (key : string) :
  (forall r, ~ In (Assign key r) evs) -> get (replay evs o) key = get o key.
Proof.
  revert o. induction evs as [| ev evs IH]; intros o Hno; simpl; [reflexivity |].
  assert (Hrest : forall r, ~ In (Assign key r) evs)
    by (intros r Hin; apply (Hno r); right; exact Hin).
  destruct ev as [c | key' r' | label e]; try (apply IH; exact Hrest).
  rewrite IH by exact Hrest. apply get_set_other.
  intros ->. apply (Hno r'). left. reflexivity.
Qed.

(** The record last assigned to a key is the one the mapping holds. *)
Lemma replay_get_last (pre post : list Event) (key : string) (r : RepositoryRecord)
    (o : object RepositoryRecord) :
  (forall r', ~ In (Assign key r') post) ->
  get (replay (pre ++ Assign key r :: post) o) key = Some r.
Proof.
  intros Hno. rewrite Runs.replay_app. simpl.
  rewrite replay_get_untouched by exact Hno. apply get_set_same.
Qed.

Lemma replay_get_kept (evs : list Event) (o : object RepositoryRecord) (key : string) :
  get o key <> None -> get (replay evs o) key <> None.
Proof.
  revert o. induction evs as [| ev evs IH]; intros o Hget; simpl; [exact Hget |].
  destruct ev as [c | key' r' | label e]; try (apply IH; exact Hget).
  apply IH. destruct (string_dec key key') as [-> | Hne].
  - rewrite get_set_same. discriminate.
  - rewrite get_set_other by exact Hne. exact Hget.
Qed.

Lemma set_keys_In {V} (o : object V) (k x : string) (v : V) :
  In x (keys (set o k v)) <-> In x (keys o) \/ x = k.
Proof.
  unfold keys. induction o as [| [k' v'] o IH]; simpl.
  - intuition congruence.
  - destruct (String.eqb k k') eqn:E; simpl.
    + apply String.eqb_eq in E. subst k'. intuition congruence.
    + rewrite IH. tauto.
Qed.

Lemma set_keys_NoDup {V} (o : object V) (k : string) (v : V) :
  NoDup (keys o) -> NoDup (keys (set o k v)).
Proof.
  induction o as [| [k' v'] o IH]; simpl; intros Hnd.
  - repeat constructor. simpl. tauto.
  - inversion Hnd as [| ? ? Hout Hrest]; subst.
    destruct (String.eqb k k') eqn:E; simpl; [exact Hnd |].
    constructor; [| apply IH, Hrest].
    intros Hin. apply (set_keys_In o k k' v) in Hin as [Hin | ->].
    + exact (Hout Hin).
    + rewrite String.eqb_refl in E. discriminate E.
Qed.

Lemma replay_NoDup (evs : list Event) (o : object RepositoryRecord) :
  NoDup (keys o) -> NoDup (keys (replay evs o)).
Proof.
  revert o. induction evs as [| ev evs IH]; intros o Hnd; simpl; [exact Hnd |].
  destruct ev; try (apply IH; exact Hnd). apply IH, set_keys_NoDup, Hnd.
Qed.

Lemma replay_keys (evs : list Event) (o : object RepositoryRecord) :
  keys (replay evs o) = fold_left Set_add (map fst (More.assignments evs)) (keys o).
Proof.
  revert o. induction evs as [| ev evs IH]; intros o; simpl; [reflexivity |].
  destruct ev as [c | key r | label e]; try apply IH.
  simpl. rewrite IH, InsertionOrder.keys_set. reflexivity.
Qed.

Lemma replay_get (evs : list Event) (o : object RepositoryRecord) (key : string) :
  get (replay evs o) key
  = match More.last_assigned evs key with
    | Some r => Some r
    | None => get o key
    end.
Proof.
  revert o. induction evs as [| ev evs IH]; intros o; simpl; [reflexivity |].
  destruct ev as [c | k r | label e]; try apply IH.
  rewrite IH. destruct (More.last_assigned evs key) as [later |]; [reflexivity |].
  destruct (String.eqb key k) eqn:E.
  - apply String.eqb_eq in E. subst k. apply get_set_same.
  - apply String.eqb_neq in E. apply get_set_other. exact E.
Qed.

(** Through [initialize], whether it completes or fails, the keys of the
    mapping stay distinct and keep their places: the keys after the run
    are the keys before it, in their order, followed by the full names
    assigned for the first time, in the order of their first assignment.
    An assignment to a full name that is stored already replaces its
    record where it is: every key holds the record assigned to it last,
    or the record it held before the run when none was assigned. *)
Theorem initialize_distinct_keys (w : World) (st st' : State) (out : outcome unit) :
  initialize w st = (out, st') ->
  NoDup (keys (repositories (this st))) ->
  exists evs,
    events st' = events st ++ evs
    /\ NoDup (keys (repositories (this st')))
    /\ keys (repositories (this st'))
       = keys (repositories (this st))
         ++ filter (More.absent_from (keys (repositories (this st))))
              (More.distinct (map fst (More.assignments evs)))
    /\ (forall key,
          get (repositories (this st')) key
          = match More.last_assigned evs key with
            | Some r => Some r
            | None => get (repositories (this st)) key
            end).
Proof.
  intros Hrun Hnd.
  destruct (Runs.run_initialize w st out st' Hrun) as (evs & Hev & _ & _ & R & _).
  exists evs. split; [exact Hev |]. rewrite R. split; [| split].
  - apply replay_NoDup, Hnd.
  - rewrite replay_keys. apply InsertionOrder.fold_Set_add_distinct.
  - intros key. apply replay_get.
Qed.

(** The user has [octo/alpha] and [octo/beta]; the organization lists
    [octo/alpha] again, with another description. *)
Lemma initialize_distinct_keys_witness :
  exists evs,
    events (snd (initialize shared_world fresh)) = events fresh ++ evs
    /\ NoDup (keys (repositories (this (snd (initialize shared_world fresh)))))
    /\ keys (repositories (this (snd (initialize shared_world fresh))))
       = keys (repositories (this fresh))
         ++ filter (More.absent_from (keys (repositories (this fresh))))
              (More.distinct (map fst (More.assignments evs)))
    /\ (forall key,
          get (repositories (this (snd (initialize shared_world fresh)))) key
          = match More.last_assigned evs key with
            | Some r => Some r
            | None => get (repositories (this fresh)) key
            end).
Proof.
  apply (initialize_distinct_keys shared_world fresh (snd (initialize shared_world fresh))
           (Ok tt)).
  - reflexivity.
  - constructor.
Defined.

Lemma all_succeed_at (w : World) (h pre post : list Event) (c : Call) :
  all_succeed w h (pre ++ Request c :: post) -> failure w (h ++ pre) c = None.
Proof.
  intros H. apply Runs.all_succeed_app in H as [_ H]. simpl in H. tauto.
Qed.

(** A failed request is the last one of its run, and the run ends in its
    exception. *)
Lemma ended_failure {A} (w : World) (h evs pre post : list Event) (c : Call) (e : exn)
    (out : outcome A) :
  ended w h evs out ->
  evs = pre ++ Request c :: post ->
  failure w (h ++ pre) c = Some e ->
  out = Throw e /\ Forall is_console post.
Proof.
  intros Hend Hevs Hfail. destruct out as [a | e']; simpl in Hend.
  - rewrite Hevs in Hend. apply all_succeed_at in Hend. congruence.
  - destruct Hend as (pre' & c' & logs & Hevs' & Hpre' & Hfail' & Hlogs).
    rewrite Hevs in Hevs'. apply app_eq_app in Hevs' as (l & [[E1 E2] | [E1 E2]]).
    + destruct l as [| ev l]; simpl in E2.
      * rewrite app_nil_r in E1. subst pre. inversion E2; subst.
        split; [congruence | assumption].
      * inversion E2; subst. exfalso.
        rewrite Forall_forall in Hlogs. apply (Hlogs (Request c)).
        apply in_or_app. right. left. reflexivity.
    + destruct l as [| ev l]; simpl in E2.
      * rewrite app_nil_r in E1. subst pre'. inversion E2; subst.
        split; [congruence | assumption].
      * inversion E2; subst. apply all_succeed_at in Hpre'. congruence.
Qed.

(** C7. Whatever [initialize] did before it ended is kept: the mapping is
    the old one with every assignment of the run applied in order, so a
    key holds the record last assigned to it and no key is lost. If the
    reply to a request fails, [initialize] ends in the exception of that
    reply, and after that request nothing happens but console output. *)
Theorem initialize_failure_keeps_records (w : World) (st st' : State) (out : outcome unit) :
  initialize w st = (out, st') ->
  exists evs,
    events st' = events st ++ evs
    /\ repositories (this st') = replay evs (repositories (this st))
    /\ (forall pre key r post,
          evs = pre ++ Assign key r :: post ->
          (forall r', ~ In (Assign key r') post) ->
          get (repositories (this st')) key = Some r)
    /\ (forall key,
          get (repositories (this st)) key <> None ->
          get (repositories (this st')) key <> None)
    /\ (forall pre c post e,
          evs = pre ++ Request c :: post ->
          failure w (events st ++ pre) c = Some e ->
          out = Throw e /\ Forall is_console post).
Proof.
  intros Hrun.
  destruct (Runs.run_initialize w st out st' Hrun) as (evs & E & _ & _ & R & Hend).
  exists evs. split; [exact E | split; [exact R | split; [| split]]].
  - intros pre key r post -> Hno. rewrite R. apply replay_get_last, Hno.
  - intros key Hget. rewrite R. apply replay_get_kept, Hget.
  - intros pre c post e Hevs Hfail. exact (ended_failure w _ _ _ _ _ _ _ Hend Hevs Hfail).
Qed.

(** The run of [initialize] in which the network goes down after the first
    record was stored. *)
Lemma initialize_failure_keeps_records_witness :
  exists evs,
    events (snd (initialize flaky_world fresh)) = events fresh ++ evs
    /\ repositories (this (snd (initialize flaky_world fresh)))
       = replay evs (repositories (this fresh))
    /\ (forall pre key r post,
          evs = pre ++ Assign key r :: post ->
          (forall r', ~ In (Assign key r') post) ->
          get (repositories (this (snd (initialize flaky_world fresh)))) key = Some r)
    /\ (forall key,
          get (repositories (this fresh)) key <> None ->
          get (repositories (this (snd (initialize flaky_world fresh)))) key <> None)
    /\ (forall pre c post e,
          evs = pre ++ Request c :: post ->
          failure flaky_world (events fresh ++ pre) c = Some e ->
          @Throw unit (Rejection "Failed to fetch") = Throw e /\ Forall is_console post).
Proof.
  apply (initialize_failure_keeps_records flaky_world fresh
           (snd (initialize flaky_world fresh)) (Throw (Rejection "Failed to fetch"))).
  reflexivity.
Defined.

End Lifecycle.

(** ** Cosine similarity: vectors of different lengths and [NaN] *)

Module CosineEdges.
Import JS SmartRouter Spec Binary64.

Local Open Scope float_scope.

Lemma nan_mul_l (x y : float) : is_nan x = true -> is_nan (x * y) = true.
Proof.
  rewrite !is_nan_spec, mul_spec. intros ->. reflexivity.
Qed.

Lemma nan_mul_r (x y : float) : is_nan y = true -> is_nan (x * y) = true.
Proof. rewrite mul_comm. apply nan_mul_l. Qed.

Lemma nan_add_l (x y : float) : is_nan x = true -> is_nan (x + y) = true.
Proof.
  rewrite !is_nan_spec, add_spec. intros ->. reflexivity.
Qed.

Lemma nan_add_r (x y : float) : is_nan y = true -> is_nan (x + y) = true.
Proof.
  rewrite !is_nan_spec, add_spec. intros ->.
  destruct (Prim2SF x) as [[] | [] | | [] m e]; reflexivity.
Qed.

Lemma nan_div_l (x y : float) : is_nan x = true -> is_nan (x / y) = true.
Proof.
  rewrite !is_nan_spec, div_spec. intros ->. reflexivity.
Qed.

(** Once a running sum is [NaN] it stays [NaN]. *)
Lemma sum_products_nan_acc (a b : list float) (indices : list nat) (acc : float) :
  is_nan acc = true -> is_nan (sum_products a b indices acc) = true.
Proof.
  revert acc. induction indices as [| i indices IH]; intros acc Hacc.
  - exact Hacc.
  - unfold sum_products in *. simpl. apply IH, nan_add_l, Hacc.
Qed.

Lemma sum_products_nan (a b : list float) (indices : list nat) (acc : float) (i : nat) :
  In i indices -> is_nan (at_index a i * at_index b i) = true ->
  is_nan (sum_products a b indices acc) = true.
Proof.
  revert acc. induction indices as [| j indices IH]; intros acc Hin Hnan.
  - destruct Hin.
  - destruct Hin as [-> | Hin].
    + change (sum_products a b (i :: indices) acc)
        with (sum_products a b indices (acc + at_index a i * at_index b i)).
      apply sum_products_nan_acc, nan_add_r, Hnan.
    + change (sum_products a b (j :: indices) acc)
        with (sum_products a b indices (acc + at_index a j * at_index b j)).
      apply IH; assumption.
Qed.

(** A [NaN] read at a position the loop visits makes the result [0]. *)
Lemma poisoned (a b : list float) (i : nat) :
  (i < List.length a)%nat ->
  is_nan (at_index a i) = true \/ is_nan (at_index b i) = true ->
  calculateCosineSimilarity a b = 0.
Proof.
  intros Hi Hnan. rewrite Cosine.calculateCosineSimilarity_sums.
  apply Cosine.or_nan, nan_div_l.
  apply (sum_products_nan a b _ 0 i).
  - apply in_seq. lia.
  - destruct Hnan as [H | H]; [apply nan_mul_l | apply nan_mul_r]; exact H.
Qed.

(** When the second vector is shorter than the first, the loop reads
    [undefined] past its end and the similarity is [0]. *)
Theorem similarity_short_second_vector (a b : list float) :
  (List.length b < List.length a)%nat -> calculateCosineSimilarity a b = 0.
Proof.
  intros Hlen. apply (poisoned a b (List.length b) Hlen). right.
  unfold at_index. rewrite nth_overflow by lia. reflexivity.
Qed.

Lemma similarity_short_second_vector_witness :
  calculateCosineSimilarity [1; 2; 3] [1; 2] = 0.
Proof. apply (similarity_short_second_vector [1; 2; 3] [1; 2]). simpl. lia. Defined.

(** A [NaN] component of the first vector, or of the second at a position
    the first one has, makes the similarity [0]. *)
Theorem similarity_nan_component (a b : list float) (i : nat) :
  (i < List.length a)%nat ->
  is_nan (nth i a 0) = true \/ is_nan (nth i b 0) = true ->
  calculateCosineSimilarity a b = 0.
Proof.
  intros Hi [Ha | Hb].
  - apply (poisoned a b i Hi). left. unfold at_index.
    rewrite (nth_indep a nan 0 Hi). exact Ha.
  - apply (poisoned a b i Hi). right. unfold at_index.
    destruct (Nat.lt_ge_cases i (List.length b)) as [Hlt | Hge].
    + rewrite (nth_indep b nan 0 Hlt). exact Hb.
    + rewrite nth_overflow by exact Hge. reflexivity.
Qed.

Lemma similarity_nan_component_witness :
  calculateCosineSimilarity [1; 2] [nan; 2] = 0.
Proof.
  apply (similarity_nan_component [1; 2] [nan; 2] 0).
  - simpl. lia.
  - right. reflexivity.
Defined.

Lemma sum_products_ext (a b a' b' : list float) (indices : list nat) (acc : float) :
  (forall i, In i indices -> at_index a i = at_index a' i /\ at_index b i = at_index b' i) ->
  sum_products a b indices acc = sum_products a' b' indices acc.
Proof.
  revert acc. induction indices as [| j indices IH]; intros acc Hext.
  - reflexivity.
  - unfold sum_products in *. simpl.
    destruct (Hext j (or_introl eq_refl)) as [-> ->].
    apply IH. intros i Hi. apply Hext. right. exact Hi.
Qed.

(** The loop runs over the positions of the first vector only: what the
    second vector holds beyond them does not matter. *)
Theorem similarity_ignores_extra_components (a b extra : list float) :
  (List.length a <= List.length b)%nat ->
  calculateCosineSimilarity a (b ++ extra) = calculateCosineSimilarity a b.
Proof.
  intros Hlen. rewrite !Cosine.calculateCosineSimilarity_sums.
  assert (Hb : forall i, In i (seq 0 (List.length a)) ->
                         at_index (b ++ extra) i = at_index b i).
  { intros i Hi. apply in_seq in Hi. unfold at_index. apply app_nth1. lia. }
  rewrite (sum_products_ext a (b ++ extra) a b) by (intros i Hi; split; auto).
  rewrite (sum_products_ext (b ++ extra) (b ++ extra) b b) by (intros i Hi; split; auto).
  reflexivity.
Qed.

Lemma similarity_ignores_extra_components_witness :
  calculateCosineSimilarity [3; 4] ([3; 4] ++ [100; -7])
  = calculateCosineSimilarity [3; 4] [3; 4].
Proof. apply (similarity_ignores_extra_components [3; 4] [3; 4] [100; -7]). simpl. lia. Defined.

End CosineEdges.

(** ** Keyword extraction: order, shape and letter case *)

Module KeywordShape.
Import JS SmartRouter Spec More InsertionOrder.

Local Open Scope string_scope.
Local Open Scope list_scope.

(** The keywords come in insertion order: the topics first, then the
    tokens of the name and the description, each at its first occurrence
    only. *)
Theorem extractKeywords_order (repo : Repo) :
  extractKeywords repo = distinct (spec_topics repo ++ spec_tokens (spec_text repo)).
Proof.
  rewrite Keywords.extractKeywords_fold, <- fold_left_app, fold_Set_add_distinct.
  simpl. generalize (distinct (spec_topics repo ++ spec_tokens (spec_text repo))).
  intros l. induction l as [| x l IH]; simpl; [reflexivity | rewrite IH; reflexivity].
Qed.

(** *** The shape of a token *)

Lemma all_chars_app (p : ascii -> bool) (s t : string) :
  all_chars p (s ++ t) = all_chars p s && all_chars p t.
Proof.
  induction s as [| c s IH]; simpl; [reflexivity |].
  rewrite IH, andb_assoc. reflexivity.
Qed.

Lemma split_go_chars (p : ascii -> bool) (s cur : string) (in_sep : bool) :
  all_chars (fun c => is_space c || p c) s = true ->
  all_chars p cur = true ->
  Forall (fun piece => all_chars p piece = true) (split_go s cur in_sep).
Proof.
  revert cur in_sep. induction s as [| c s IH]; intros cur in_sep Hs Hcur; simpl.
  - repeat constructor. exact Hcur.
  - simpl in Hs. apply andb_true_iff in Hs as [Hc Hs].
    destruct (is_space c) eqn:E.
    + destruct in_sep.
      * apply IH; assumption.
      * constructor; [exact Hcur | apply IH; [exact Hs | reflexivity]].
    + apply IH; [exact Hs |]. rewrite all_chars_app, Hcur. simpl.
      simpl in Hc. rewrite Hc. reflexivity.
Qed.

Lemma all_chars_map (p : ascii -> bool) (f : ascii -> ascii) (s : string) :
  (forall c, p (f c) = true) -> all_chars p (map_chars f s) = true.
Proof.
  intros H. induction s as [| c s IH]; simpl; [reflexivity |].
  rewrite H, IH. reflexivity.
Qed.

Lemma lowered_char (c : ascii) :
  let c' := lower_char c in
  is_space (if is_word c' then c' else " "%char)
  || is_token_char (if is_word c' then c' else " "%char) = true.
Proof.
  destruct c as [[] [] [] [] [] [] [] []]; vm_compute; reflexivity.
Qed.

Lemma spec_tokens_shape (text : string) :
  Forall (fun token => (3 <= String.length token)%nat /\ all_chars is_token_char token = true)
    (spec_tokens text).
Proof.
  unfold spec_tokens, split_whitespace, toLowerCase. rewrite Keywords.map_chars_compose.
  rewrite Forall_forall. intros token Hin. apply filter_In in Hin as [Hin Hlen].
  split; [apply Nat.ltb_lt in Hlen; lia |]. clear Hlen.
  revert token Hin. rewrite <- Forall_forall. apply split_go_chars; [| reflexivity].
  apply (all_chars_map (fun c => is_space c || is_token_char c)). exact lowered_char.
Qed.

(** A keyword that is not one of the topics has three characters or more,
    all of them lowercase letters, digits or underscores. *)
Theorem extractKeywords_token_shape (repo : Repo) (w : string) :
  In w (extractKeywords repo) ->
  In w (spec_topics repo)
  \/ ((3 <= String.length w)%nat /\ all_chars is_token_char w = true).
Proof.
  rewrite Keywords.extractKeywords_fold, !Keywords.fold_Set_add_In. simpl.
  intros [[[] | Htopic] | Htoken]; [left; exact Htopic | right].
  pose proof (spec_tokens_shape (spec_text repo)) as H.
  rewrite Forall_forall in H. apply H, Htoken.
Qed.

Lemma extractKeywords_token_shape_witness :
  In "repo" (spec_topics example_repo)
  \/ ((3 <= String.length "repo")%nat /\ all_chars is_token_char "repo" = true).
Proof.
  apply (extractKeywords_token_shape example_repo "repo").
  vm_compute. tauto.
Defined.

(** *** Letter case *)

Lemma lower_char_idempotent (c : ascii) : lower_char (lower_char c) = lower_char c.
Proof. destruct c as [[] [] [] [] [] [] [] []]; vm_compute; reflexivity. Qed.

Lemma toLowerCase_app (s t : string) :
  toLowerCase (s ++ t) = (toLowerCase s ++ toLowerCase t)%string.
Proof. apply Keywords.map_chars_app. Qed.

(** The keywords do not depend on the letter case of the name and of the
    description: two repositories with the same topics whose names and
    descriptions agree once lowercased have the same keywords. *)
Theorem extractKeywords_ignores_case (r1 r2 : Repo) :
  topics r1 = topics r2 ->
  toLowerCase (name r1) = toLowerCase (name r2) ->
  option_map toLowerCase (repo_description r1) = option_map toLowerCase (repo_description r2) ->
  extractKeywords r1 = extractKeywords r2.
Proof.
  intros Ht Hn Hd. unfold extractKeywords. rewrite Ht. f_equal. f_equal. f_equal. f_equal.
  simpl. rewrite !toLowerCase_app, Hn. f_equal. f_equal.
  destruct (repo_description r1) as [d1 |], (repo_description r2) as [d2 |];
    simpl in Hd; try discriminate Hd; [| reflexivity].
  inversion Hd as [E]. unfold toLowerCase in *. simpl. rewrite E. reflexivity.
Qed.

Lemma extractKeywords_ignores_case_witness :
  extractKeywords {| name := "Smart-Router"; full_name := "octo/r";
                     repo_description := Some "Routes ISSUES"; topics := Some ["Go"] |}
  = extractKeywords {| name := "SMART-router"; full_name := "octo/r";
                       repo_description := Some "routes issues"; topics := Some ["Go"] |}.
Proof.
  apply (extractKeywords_ignores_case
           {| name := "Smart-Router"; full_name := "octo/r";
              repo_description := Some "Routes ISSUES"; topics := Some ["Go"] |}
           {| name := "SMART-router"; full_name := "octo/r";
              repo_description := Some "routes issues"; topics := Some ["Go"] |});
    reflexivity.
Defined.

End KeywordShape.

(** ** Processing repositories: the exact run *)

Module Processing.
Import JS SmartRouter Trace More Examples.

Local Open Scope string_scope.
Local Open Scope list_scope.

Lemma processRepositories_cons (w : World) (repo : Repo) (rest : list Repo) (st : State) :
  processRepositories w (repo :: rest) st
  = match createEmbedding w (embedding_text repo) st with
    | (Ok v, st1) =>
        processRepositories w rest
          (snd (assign_repository (full_name repo) (record_of repo v) st1))
    | (Throw e, st1) => (Throw e, st1)
    end.
Proof.
  unfold processRepositories. simpl. unfold bind at 1 2.
  unfold embedding_text, record_of.
  destruct (createEmbedding w _ st) as [[v | e] st1]; reflexivity.
Qed.

Lemma stored_steps_app (headers : list (string * string)) (p1 p2 : list (Repo * list float)) :
  stored_steps headers (p1 ++ p2) = stored_steps headers p1 ++ stored_steps headers p2.
Proof. unfold stored_steps. apply flat_map_app. Qed.

(* The run of the loop, step by step: the repositories taken in order, one
   request each, the record stored as soon as its embedding is there. *)
Lemma processRepositories_steps (w : World) (repos : list Repo) (st st' : State)
    (out : outcome unit) :
  processRepositories w repos st = (out, st') ->
  exists (done : list Repo) (vs : list (list float)),
    List.length vs = List.length done
    /\ repositories (this st') = store_all (combine done vs) (repositories (this st))
    /\ match out with
       | Ok _ =>
           done = repos
           /\ events st'
              = events st ++ stored_steps (voyageHeaders (this st)) (combine done vs)
       | Throw e =>
           exists failed rest,
             repos = done ++ failed :: rest
             /\ events st'
                = events st ++ stored_steps (voyageHeaders (this st)) (combine done vs)
                  ++ [Request (embeddings_call (voyageHeaders (this st)) (embedding_text failed));
                      ConsoleError "Error creating embedding:" e]
       end.
Proof.
  revert st. induction repos as [| repo rest IH]; intros st Hrun.
  - inversion Hrun; subst. exists [], []. simpl. rewrite app_nil_r. auto.
  - rewrite processRepositories_cons, Runs.createEmbedding_run in Hrun. cbv zeta in Hrun.
    destruct (settle _) as [v | e].
    + apply IH in Hrun as (done & vs & Hlen & Hrepos & Hout). simpl in Hrepos, Hout.
      exists (repo :: done), (v :: vs). split; [simpl; congruence | split; [exact Hrepos |]].
      destruct out as [[] | e].
      * destruct Hout as [-> Hev]. split; [reflexivity |].
        rewrite Hev, <- !app_assoc. reflexivity.
      * destruct Hout as (failed & rest' & -> & Hev). exists failed, rest'.
        split; [reflexivity |]. rewrite Hev, <- !app_assoc. reflexivity.
    + inversion Hrun; subst; clear Hrun. exists [], []. simpl.
      split; [reflexivity | split; [reflexivity |]].
      exists repo, rest. split; [reflexivity |]. rewrite <- app_assoc. reflexivity.
Qed.

(** [processRepositories] stops at the first repository whose embedding
    fails: that failure is logged once and thrown, the repositories before
    it keep their records, and nothing is requested or stored for the
    repositories after it. *)
Theorem processRepositories_stops_at_first_failure (w : World) (repos : list Repo)
    (st st' : State) (e : exn) :
  processRepositories w repos st = (Throw e, st') ->
  exists (done : list Repo) (vs : list (list float)) (failed : Repo) (rest : list Repo),
    repos = done ++ failed :: rest
    /\ List.length vs = List.length done
    /\ repositories (this st') = store_all (combine done vs) (repositories (this st))
    /\ events st'
       = events st ++ stored_steps (voyageHeaders (this st)) (combine done vs)
         ++ [Request (embeddings_call (voyageHeaders (this st)) (embedding_text failed));
             ConsoleError "Error creating embedding:" e].
Proof.
  intros Hrun.
  destruct (processRepositories_steps w repos st st' (Throw e) Hrun)
    as (done & vs & Hlen & Hrepos & failed & rest & Hsplit & Hev).
  exists done, vs, failed, rest. auto.
Qed.

Lemma processRepositories_stops_at_first_failure_witness :
  exists (done : list Repo) (vs : list (list float)) (failed : Repo) (rest : list Repo),
    [repo_a; repo_b] = done ++ failed :: rest
    /\ List.length vs = List.length done
    /\ repositories (this (snd (processRepositories flaky_world [repo_a; repo_b] fresh)))
       = store_all (combine done vs) (repositories (this fresh))
    /\ events (snd (processRepositories flaky_world [repo_a; repo_b] fresh))
       = events fresh ++ stored_steps (voyageHeaders (this fresh)) (combine done vs)
         ++ [Request (embeddings_call (voyageHeaders (this fresh)) (embedding_text failed));
             ConsoleError "Error creating embedding:" (Rejection "Failed to fetch")].
Proof.
  apply (processRepositories_stops_at_first_failure flaky_world [repo_a; repo_b] fresh
           (snd (processRepositories flaky_world [repo_a; repo_b] fresh))
           (Rejection "Failed to fetch")).
  reflexivity.
Defined.

Lemma requests_app (evs1 evs2 : list Event) :
  requests (evs1 ++ evs2) = requests evs1 ++ requests evs2.
Proof.
  induction evs1 as [| ev evs1 IH]; simpl; [reflexivity |].
  destruct ev; simpl; rewrite IH; reflexivity.
Qed.

Lemma requests_stored_steps (headers : list (string * string))
    (done : list Repo) (vs : list (list float)) :
  List.length vs = List.length done ->
  requests (stored_steps headers (combine done vs))
  = map (fun repo => embeddings_call headers (embedding_text repo)) done.
Proof.
  revert vs. induction done as [| repo done IH]; intros [| v vs] Hlen;
    simpl in *; try discriminate; [reflexivity |].
  rewrite IH by congruence. reflexivity.
Qed.

(** A run that ends well has sent one embeddings request per repository,
    in the order of the list; the text of each is the description (empty
    when null), a space, and the keywords joined by spaces. *)
Theorem processRepositories_one_request_each (w : World) (repos : list Repo)
    (st st' : State) :
  processRepositories w repos st = (Ok tt, st') ->
  exists evs,
    events st' = events st ++ evs
    /\ requests evs
       = map (fun repo => embeddings_call (voyageHeaders (this st)) (embedding_text repo)) repos.
Proof.
  intros Hrun.
  destruct (processRepositories_steps w repos st st' (Ok tt) Hrun)
    as (done & vs & Hlen & _ & -> & Hev).
  eexists. split; [exact Hev |]. apply requests_stored_steps, Hlen.
Qed.

Lemma processRepositories_one_request_each_witness :
  exists evs,
    events (snd (processRepositories quiet_world [repo_a; repo_b] fresh)) = events fresh ++ evs
    /\ requests evs
       = map (fun repo => embeddings_call (voyageHeaders (this fresh)) (embedding_text repo))
           [repo_a; repo_b].
Proof.
  apply (processRepositories_one_request_each quiet_world [repo_a; repo_b] fresh
           (snd (processRepositories quiet_world [repo_a; repo_b] fresh))).
  reflexivity.
Defined.

Lemma store_all_untouched (pairs : list (Repo * list float)) (o : object RepositoryRecord)
    (key : string) :
  ~ In key (map (fun p => full_name (fst p)) pairs) ->
  get (store_all pairs o) key = get o key.
Proof.
  revert o. induction pairs as [| p pairs IH]; intros o Hout; simpl; [reflexivity |].
  unfold store_all in *. simpl. rewrite IH.
  - apply Lifecycle.get_set_other. intros ->. apply Hout. left. reflexivity.
  - intros Hin. apply Hout. right. exact Hin.
Qed.

Lemma store_all_get (pairs : list (Repo * list float)) (o : object RepositoryRecord)
    (p : Repo * list float) :
  NoDup (map (fun p => full_name (fst p)) pairs) ->
  In p pairs ->
  get (store_all pairs o) (full_name (fst p)) = Some (record_of (fst p) (snd p)).
Proof.
  revert o. induction pairs as [| q pairs IH]; intros o Hnd Hin; [destruct Hin |].
  inversion Hnd as [| ? ? Hout Hrest]; subst.
  change (store_all (q :: pairs) o)
    with (store_all pairs (set o (full_name (fst q)) (record_of (fst q) (snd q)))).
  destruct Hin as [-> | Hin].
  - rewrite store_all_untouched by exact Hout. apply Lifecycle.get_set_same.
  - apply IH; assumption.
Qed.

Lemma combine_fst_names (done : list Repo) (vs : list (list float)) :
  List.length vs = List.length done ->
  map (fun p : Repo * list float => full_name (fst p)) (combine done vs) = map full_name done.
Proof.
  revert vs. induction done as [| repo done IH]; intros [| v vs] Hlen;
    simpl in *; try discriminate; [reflexivity |].
  rewrite IH by congruence. reflexivity.
Qed.

Lemma in_combine_exists (done : list Repo) (vs : list (list float)) (repo : Repo) :
  List.length vs = List.length done -> In repo done -> exists v, In (repo, v) (combine done vs).
Proof.
  revert vs. induction done as [| r done IH]; intros [| v vs] Hlen Hin;
    simpl in *; try discriminate; [destruct Hin |].
  destruct Hin as [-> | Hin].
  - exists v. left. reflexivity.
  - destruct (IH vs ltac:(congruence) Hin) as (v' & Hv). exists v'. right. exact Hv.
Qed.

(** After a run that ends well over repositories with distinct full
    names, the mapping holds under each full name the record of that
    repository: its description (empty when null), its keywords and an
    embedding. *)
Theorem processRepositories_stores_each (w : World) (repos : list Repo)
    (st st' : State) (repo : Repo) :
  processRepositories w repos st = (Ok tt, st') ->
  NoDup (map full_name repos) ->
  In repo repos ->
  exists v, get (repositories (this st')) (full_name repo) = Some (record_of repo v).
Proof.
  intros Hrun Hnd Hin.
  destruct (processRepositories_steps w repos st st' (Ok tt) Hrun)
    as (done & vs & Hlen & Hrepos & -> & _).
  destruct (in_combine_exists repos vs repo Hlen Hin) as (v & Hv).
  exists v. rewrite Hrepos.
  apply (store_all_get (combine repos vs) _ (repo, v)); [| exact Hv].
  rewrite combine_fst_names by exact Hlen. exact Hnd.
Qed.

Lemma processRepositories_stores_each_witness :
  exists v,
    get (repositories (this (snd (processRepositories quiet_world [repo_a; repo_b] fresh))))
      (full_name repo_b)
    = Some (record_of repo_b v).
Proof.
  apply (processRepositories_stores_each quiet_world [repo_a; repo_b] fresh
           (snd (processRepositories quiet_world [repo_a; repo_b] fresh)) repo_b).
  - reflexivity.
  - repeat constructor; simpl; intuition discriminate.
  - right. left. reflexivity.
Defined.

End Processing.

(** ** Initialization: the exact run when it completes, and what every
    request looks like *)

Module Initialization.
Import JS SmartRouter Trace More Examples Examples2.

Local Open Scope string_scope.
Local Open Scope list_scope.

Lemma bind_Ok_inv {A B} (m : M A) (k : A -> M B) (st st' : State) (b : B) :
  bind m k st = (Ok b, st') ->
  exists a st1, m st = (Ok a, st1) /\ k a st1 = (Ok b, st').
Proof.
  unfold bind. destruct (m st) as [[a | e] st1]; intros H; [eauto | discriminate H].
Qed.

Lemma request_Ok_inv {A} (c : Call) (reply : list Event -> exn + A) (st st1 : State) (a : A) :
  request c reply st = (Ok a, st1) ->
  reply (events st) = inr a /\ st1 = {| this := this st; events := events st ++ [Request c] |}.
Proof.
  rewrite Runs.request_run. destruct (reply (events st)) as [e | a']; intros H;
    inversion H; subst; auto.
Qed.

Lemma combine_fst (repos : list Repo) (vs : list (list float)) :
  List.length vs = List.length repos -> map fst (combine repos vs) = repos.
Proof.
  revert vs. induction repos as [| r repos IH]; intros [| v vs] Hlen;
    simpl in *; try discriminate; [reflexivity |].
  rewrite IH by congruence. reflexivity.
Qed.

(** A run of [processRepositories] that ends well, in one piece. *)
Lemma processRepositories_Ok (w : World) (repos : list Repo) (st st' : State) :
  processRepositories w repos st = (Ok tt, st') ->
  exists pairs,
    map fst pairs = repos
    /\ embedded w (voyageHeaders (this st)) (events st) pairs
    /\ events st' = events st ++ stored_steps (voyageHeaders (this st)) pairs
    /\ repositories (this st') = store_all pairs (repositories (this st))
    /\ voyageHeaders (this st') = voyageHeaders (this st).
Proof.
  revert st. induction repos as [| repo rest IH]; intros st Hrun.
  - inversion Hrun; subst. exists []. simpl. rewrite app_nil_r. auto.
  - rewrite Processing.processRepositories_cons, Runs.createEmbedding_run in Hrun.
    cbv zeta in Hrun.
    destruct (settle _) as [v | e] eqn:Hv; [| discriminate Hrun].
    apply IH in Hrun as (pairs & Hfst & Hemb & Hev & Hrepos & Hheaders).
    simpl in Hemb, Hev, Hrepos, Hheaders.
    exists ((repo, v) :: pairs). simpl. rewrite Hfst.
    split; [reflexivity | split; [| split; [| split]]].
    + split; [exact Hv |]. rewrite <- app_assoc in Hemb. exact Hemb.
    + rewrite Hev, <- !app_assoc. reflexivity.
    + exact Hrepos.
    + exact Hheaders.
Qed.

Lemma fetchOrgRepositories_Ok (w : World) (orgName : string) (st st' : State) :
  fetchOrgRepositories w orgName st = (Ok tt, st') ->
  exists pairs,
    reply_org_repos w (events st) orgName 100 = inr (map fst pairs)
    /\ embedded w (voyageHeaders (this st))
         (events st ++ [Request (repos_listForOrg orgName 100)]) pairs
    /\ events st'
       = events st ++ Request (repos_listForOrg orgName 100)
                      :: stored_steps (voyageHeaders (this st)) pairs
    /\ repositories (this st') = store_all pairs (repositories (this st))
    /\ voyageHeaders (this st') = voyageHeaders (this st).
Proof.
  intros Hrun. unfold fetchOrgRepositories in Hrun.
  apply bind_Ok_inv in Hrun as (repos & st1 & Hreq & Hproc).
  apply request_Ok_inv in Hreq as [Hreply ->].
  apply processRepositories_Ok in Hproc as (pairs & Hfst & Hemb & Hev & Hrepos & Hv).
  simpl in *. exists pairs. rewrite Hfst, Hev, <- app_assoc. auto.
Qed.

Lemma for_of_orgs_Ok (w : World) (orgs : list Org) (st st' : State) :
  for_of orgs (fun org => fetchOrgRepositories w (login org)) st = (Ok tt, st') ->
  exists org_runs,
    map fst org_runs = orgs
    /\ org_pages w (voyageHeaders (this st)) (events st) org_runs
    /\ events st' = events st ++ flat_map (org_steps (voyageHeaders (this st))) org_runs
    /\ repositories (this st')
       = fold_left (fun o run => store_all (snd run) o) org_runs (repositories (this st))
    /\ voyageHeaders (this st') = voyageHeaders (this st).
Proof.
  revert st. induction orgs as [| org orgs IH]; intros st Hrun; simpl in Hrun.
  - inversion Hrun; subst. exists []. simpl. rewrite app_nil_r. auto.
  - apply bind_Ok_inv in Hrun as ([] & st1 & Horg & Hrest).
    apply fetchOrgRepositories_Ok in Horg as (pairs & Hreply & Hemb & Hev1 & Hrepos1 & Hv1).
    apply IH in Hrest as (org_runs & Hfst & Hpages & Hev & Hrepos & Hv).
    exists ((org, pairs) :: org_runs). simpl.
    rewrite Hv1, Hev1 in Hpages.
    rewrite Hfst, Hev, Hev1, Hrepos, Hrepos1, Hv, Hv1, <- !app_assoc.
    repeat split; auto.
Qed.

(** When [initialize] completes it has sent, in this order: the listing of
    the organizations, the listing of the user's repositories, one
    embeddings request per repository that listing answered with, and for
    each organization listed, in the order listed, one request for a page
    of 100 of its repositories followed by one embeddings request per
    repository that page answered with. Each record was stored right
    after its embedding arrived, with the vector the provider answered
    with, and nothing was logged. *)
Theorem initialize_complete_run (w : World) (st st' : State) :
  initialize w st = (Ok tt, st') ->
  exists (orgs : list Org) (user_pairs : list (Repo * list float))
         (org_runs : list (Org * list (Repo * list float))),
    reply_orgs w (events st) = inr orgs
    /\ map fst org_runs = orgs
    /\ reply_user_repos w (events st ++ [Request orgs_listForAuthenticatedUser])
       = inr (map fst user_pairs)
    /\ embedded w (voyageHeaders (this st))
         (events st ++ [Request orgs_listForAuthenticatedUser;
                        Request repos_listForAuthenticatedUser])
         user_pairs
    /\ org_pages w (voyageHeaders (this st))
         (events st ++ Request orgs_listForAuthenticatedUser
                       :: Request repos_listForAuthenticatedUser
                       :: stored_steps (voyageHeaders (this st)) user_pairs)
         org_runs
    /\ events st'
       = events st
         ++ Request orgs_listForAuthenticatedUser
            :: Request repos_listForAuthenticatedUser
            :: stored_steps (voyageHeaders (this st)) user_pairs
         ++ flat_map (org_steps (voyageHeaders (this st))) org_runs
    /\ repositories (this st')
       = fold_left (fun o run => store_all (snd run) o) org_runs
           (store_all user_pairs (repositories (this st))).
Proof.
  intros Hrun. unfold initialize, try_catch in Hrun.
  destruct (bind _ _ st) as [[[] | e] st2] eqn:Hbody; [| discriminate Hrun].
  inversion Hrun; subst st2; clear Hrun.
  apply bind_Ok_inv in Hbody as (orgs & st1 & Hreq & Hrest).
  apply request_Ok_inv in Hreq as [Hreply ->].
  apply bind_Ok_inv in Hrest as ([] & st2 & Huser & Horgs).
  unfold fetchUserRepositories in Huser.
  apply bind_Ok_inv in Huser as (repos & st3 & Hreq & Hproc).
  apply request_Ok_inv in Hreq as [Huser ->].
  apply processRepositories_Ok in Hproc as (user_pairs & Hufst & Hemb & Hev2 & Hrepos2 & Hv2).
  apply for_of_orgs_Ok in Horgs as (org_runs & Hfst & Hpages & Hev & Hrepos & Hv).
  simpl in *. exists orgs, user_pairs, org_runs.
  rewrite Hv2, Hev2 in Hpages. rewrite <- !app_assoc in Hpages, Hemb. simpl in Hpages, Hemb.
  rewrite Hev, Hev2, Hrepos, Hrepos2, Hv2, Hufst, <- !app_assoc. simpl.
  repeat split; auto.
  rewrite <- app_assoc in Hpages. exact Hpages.
Qed.

Lemma initialize_complete_run_witness :
  exists (orgs : list Org) (user_pairs : list (Repo * list float))
         (org_runs : list (Org * list (Repo * list float))),
    reply_orgs busy_world (events fresh) = inr orgs
    /\ map fst org_runs = orgs
    /\ reply_user_repos busy_world (events fresh ++ [Request orgs_listForAuthenticatedUser])
       = inr (map fst user_pairs)
    /\ embedded busy_world (voyageHeaders (this fresh))
         (events fresh ++ [Request orgs_listForAuthenticatedUser;
                           Request repos_listForAuthenticatedUser])
         user_pairs
    /\ org_pages busy_world (voyageHeaders (this fresh))
         (events fresh ++ Request orgs_listForAuthenticatedUser
                          :: Request repos_listForAuthenticatedUser
                          :: stored_steps (voyageHeaders (this fresh)) user_pairs)
         org_runs
    /\ events (snd (initialize busy_world fresh))
       = events fresh
         ++ Request orgs_listForAuthenticatedUser
            :: Request repos_listForAuthenticatedUser
            :: stored_steps (voyageHeaders (this fresh)) user_pairs
         ++ flat_map (org_steps (voyageHeaders (this fresh))) org_runs
    /\ repositories (this (snd (initialize busy_world fresh)))
       = fold_left (fun o run => store_all (snd run) o) org_runs
           (store_all user_pairs (repositories (this fresh))).
Proof.
  apply (initialize_complete_run busy_world fresh (snd (initialize busy_world fresh))).
  reflexivity.
Defined.

(** When the listing of the organizations fails, [initialize] logs the
    error and throws it: no other request is sent, the user's own
    repositories are not fetched either, and the mapping is left as it
    was. *)
Theorem initialize_without_organizations (w : World) (st : State) (e : exn) :
  reply_orgs w (events st) = inl e ->
  initialize w st
  = (Throw e,
     {| this := this st;
        events := events st ++ [Request orgs_listForAuthenticatedUser;
                                ConsoleError "Error initializing SmartRouter:" e] |}).
Proof.
  intros Hreply. unfold initialize, try_catch. unfold bind at 1.
  rewrite Runs.request_run, Hreply. unfold bind, console_error, emit, throw. simpl.
  rewrite <- app_assoc. reflexivity.
Qed.

Lemma initialize_without_organizations_witness :
  initialize offline_world fresh
  = (Throw (Rejection "getaddrinfo ENOTFOUND api.github.com"),
     {| this := this fresh;
        events := events fresh
                  ++ [Request orgs_listForAuthenticatedUser;
                      ConsoleError "Error initializing SmartRouter:"
                        (Rejection "getaddrinfo ENOTFOUND api.github.com")] |}).
Proof.
  apply (initialize_without_organizations offline_world fresh). reflexivity.
Defined.

(** *** The shape of the requests, however the run ends *)

Lemma well_formed_bind {A} (m : M A) (k : A -> M unit) :
  (forall st out st', m st = (out, st') ->
     exists evs, events st' = events st ++ evs
                 /\ voyageHeaders (this st') = voyageHeaders (this st)
                 /\ Forall (well_formed_request (voyageHeaders (this st))) (requests evs)) ->
  (forall a, well_formed (k a)) ->
  well_formed (bind m k).
Proof.
  intros Hm Hk st out st' Hrun. unfold bind in Hrun.
  destruct (m st) as [[a | e] st1] eqn:Em.
  - destruct (Hm _ _ _ Em) as (evs1 & E1 & V1 & F1).
    destruct (Hk a _ _ _ Hrun) as (evs2 & E2 & V2 & F2).
    exists (evs1 ++ evs2). rewrite E2, E1, V2, V1, app_assoc, Processing.requests_app.
    repeat split. apply Forall_app. rewrite V1 in F2. auto.
  - inversion Hrun; subst. apply (Hm _ _ _ Em).
Qed.

Lemma well_formed_for_of {A} (xs : list A) (body : A -> M unit) :
  (forall x, well_formed (body x)) -> well_formed (for_of xs body).
Proof.
  intros Hbody. induction xs as [| x xs IH]; simpl.
  - intros st out st' H. inversion H; subst. exists []. rewrite app_nil_r. simpl. auto.
  - apply well_formed_bind; [apply Hbody | intros _; exact IH].
Qed.

Lemma well_formed_listing {A} (c : Call) (reply : list Event -> exn + A) :
  (forall headers, well_formed_request headers c) ->
  forall st out st', request c reply st = (out, st') ->
    exists evs, events st' = events st ++ evs
                /\ voyageHeaders (this st') = voyageHeaders (this st)
                /\ Forall (well_formed_request (voyageHeaders (this st))) (requests evs).
Proof.
  intros Hc st out st' H. rewrite Runs.request_run in H. inversion H; subst; clear H.
  exists [Request c]. simpl. repeat split. constructor; [apply Hc | constructor].
Qed.

Lemma well_formed_createEmbedding (w : World) (text : string) :
  forall st out st', createEmbedding w text st = (out, st') ->
    exists evs, events st' = events st ++ evs
                /\ voyageHeaders (this st') = voyageHeaders (this st)
                /\ Forall (well_formed_request (voyageHeaders (this st))) (requests evs).
Proof.
  intros st out st' H. rewrite Runs.createEmbedding_run in H. cbv zeta in H.
  destruct (settle _) as [v | e]; inversion H; subst; clear H; simpl.
  - eexists. repeat split. simpl. repeat constructor.
  - eexists. rewrite <- app_assoc. repeat split. simpl. repeat constructor.
Qed.

Lemma well_formed_processRepositories (w : World) (repos : list Repo) :
  well_formed (processRepositories w repos).
Proof.
  apply well_formed_for_of. intros repo. apply well_formed_bind.
  - apply well_formed_createEmbedding.
  - intros v st out st' H. inversion H; subst. exists [Assign (full_name repo)
      {| description := string_or (repo_description repo) "";
         keywords := extractKeywords repo; embedding := v |}].
    simpl. auto.
Qed.

Lemma well_formed_initialize_body (w : World) :
  well_formed
    (orgs <- request orgs_listForAuthenticatedUser (reply_orgs w) ;;
     fetchUserRepositories w ;;;
     for_of orgs (fun org => fetchOrgRepositories w (login org))).
Proof.
  apply well_formed_bind; [apply well_formed_listing; intros; exact I |].
  intros orgs. apply well_formed_bind.
  - apply (well_formed_bind (request repos_listForAuthenticatedUser (reply_user_repos w))).
    + apply well_formed_listing. intros; exact I.
    + apply well_formed_processRepositories.
  - intros _. apply well_formed_for_of. intros org.
    apply (well_formed_bind (request (repos_listForOrg (login org) 100)
                               (fun h => reply_org_repos w h (login org) 100))).
    + apply well_formed_listing. intros; reflexivity.
    + apply well_formed_processRepositories.
Qed.

(** Every request of a router built from the environment, however
    [initialize] ends, is a listing (an organization's repositories are
    asked for in one page of 100) or a POST to the embeddings endpoint with
    the model [voyage-01] that carries the embeddings key of the
    environment as bearer token. *)
Theorem initialize_requests (w : World) (history : list Event) (router : SmartRouter)
    (key : string) (out : outcome unit) (st' : State) :
  process_env w "VOYAGE_API_KEY" = Some key ->
  constructor w history = (Ok router, history) ->
  initialize w {| this := router; events := history |} = (out, st') ->
  exists evs,
    events st' = history ++ evs
    /\ Forall (well_formed_request
                 [("Authorization", "Bearer " ++ key)%string;
                  ("Content-Type", "application/json")])
         (requests evs).
Proof.
  intros Hkey Hnew Hrun.
  assert (Hheaders : voyageHeaders router
                     = [("Authorization", "Bearer " ++ key)%string;
                        ("Content-Type", "application/json")]).
  { unfold constructor in Hnew. destruct (missing _ || missing _); [discriminate Hnew |].
    inversion Hnew; subst. simpl. rewrite Hkey. reflexivity. }
  unfold initialize, try_catch in Hrun.
  destruct (bind _ _ _) as [[[] | e] st1] eqn:Hbody.
  - inversion Hrun; subst.
    destruct (well_formed_initialize_body w _ _ _ Hbody) as (evs & E & _ & F).
    simpl in *. rewrite Hheaders in F. eauto.
  - destruct (well_formed_initialize_body w _ _ _ Hbody) as (evs & E & _ & F).
    inversion Hrun; subst; clear Hrun. simpl in *. rewrite Hheaders in F.
    exists (evs ++ [ConsoleError "Error initializing SmartRouter:" e]).
    rewrite E, app_assoc, Processing.requests_app. simpl. rewrite app_nil_r. auto.
Qed.

Lemma initialize_requests_witness :
  exists evs,
    events (snd (initialize busy_world
                   {| this := fresh_router; events := [] |})) = [] ++ evs
    /\ Forall (well_formed_request
                 [("Authorization", "Bearer secret"); ("Content-Type", "application/json")])
         (requests evs).
Proof.
  apply (initialize_requests busy_world [] fresh_router "secret"
           (fst (initialize busy_world {| this := fresh_router; events := [] |}))
           (snd (initialize busy_world {| this := fresh_router; events := [] |})));
    reflexivity.
Defined.

End Initialization.

(** ** Queries: one request each, and the best match first *)

Module Queries.
Import JS SmartRouter Spec Trace More Examples.

Local Open Scope string_scope.
Local Open Scope list_scope.

(** A query costs one embeddings request, for the description as typed,
    however many repositories are stored: the similarities are computed
    locally. If that request fails the query throws its error; no ranking
    is returned. *)
Theorem findMatches_one_request (w : World) (description : string) (st : State) :
  (exists evs,
     events (snd (findMatches w description st)) = events st ++ evs
     /\ requests evs = [embeddings_call (voyageHeaders (this st)) description])
  /\ (forall e,
        fst (createEmbedding w description st) = Throw e ->
        fst (findMatches w description st) = Throw e).
Proof.
  rewrite Matches.findMatches_run, Runs.createEmbedding_run. cbv zeta.
  destruct (settle _) as [q | e]; simpl; split.
  - eexists. split; reflexivity.
  - intros e H. discriminate H.
  - eexists. rewrite <- app_assoc. split; reflexivity.
  - intros e' H. inversion H. reflexivity.
Qed.

Lemma scores_ranked (q : list float) (entries : list (string * RepositoryRecord)) :
  ranked entries (fun r => calculateCosineSimilarity q (embedding r))
    (map repo (sort by_similarity (map (score q) entries))).
Proof.
  destruct (Sorting.sort_descending_stable similarity (score q no_entry) (map (score q) entries))
    as (order & Hperm & Hsort & Hsorted).
  { rewrite Forall_forall. intros m Hm. apply in_map_iff in Hm as (entry & <- & _).
    apply Cosine.similarity_canonical. }
  exists order. split; [| split].
  - rewrite length_map in Hperm. exact Hperm.
  - change by_similarity with (fun a b : Match => (similarity b - similarity a)%float).
    rewrite Hsort, map_map. apply map_ext. intros i. rewrite map_nth. reflexivity.
  - eapply Sorting.StronglySorted_weaken with (P := fun _ => True); [| | exact Hsorted].
    + intros i j _ _. unfold precedes. rewrite !map_nth. simpl. tauto.
    + rewrite Forall_forall. auto.
Qed.

Lemma get_nth {V} (o : object V) (d : string * V) (i : nat) :
  NoDup (keys o) -> i < List.length o -> get o (fst (nth i o d)) = Some (snd (nth i o d)).
Proof.
  revert i. induction o as [| [k v] o IH]; intros i Hnd Hi; simpl in Hi; [lia |].
  inversion Hnd as [| ? ? Hout Hrest]; subst.
  destruct i as [| i]; simpl.
  - rewrite String.eqb_refl. reflexivity.
  - destruct (String.eqb (fst (nth i o d)) k) eqn:E.
    + apply String.eqb_eq in E. exfalso. apply Hout. rewrite <- E.
      apply in_map, nth_In. lia.
    + apply IH; [exact Hrest | lia].
Qed.

Lemma get_In {V} (o : object V) (k : string) (v : V) : get o k = Some v -> In (k, v) o.
Proof.
  induction o as [| [k' v'] o IH]; simpl; [discriminate |].
  destruct (String.eqb k k') eqn:E.
  - apply String.eqb_eq in E. intros H. inversion H; subst. left. reflexivity.
  - intros H. right. apply IH, H.
Qed.

(** The first name a query returns is a best match: no stored repository
    is strictly more similar to the description than the one it names. *)
Theorem findMatches_best_first (w : World) (description : string) (st st1 : State)
    (q : list float) (best : string) (others : list string) :
  createEmbedding w description st = (Ok q, st1) ->
  findMatches w description st = (Ok (best :: others), st1) ->
  NoDup (keys (repositories (this st))) ->
  exists r0,
    get (repositories (this st)) best = Some r0
    /\ forall key r,
         get (repositories (this st)) key = Some r ->
         (calculateCosineSimilarity q (embedding r0)
          <? calculateCosineSimilarity q (embedding r))%float = false.
Proof.
  intros Hq Hrun Hnd. rewrite Matches.findMatches_run, Hq in Hrun.
  pose proof (Matches.createEmbedding_this w description st) as Hthis.
  rewrite Hq in Hthis. simpl in Hthis. rewrite Hthis in Hrun.
  inversion Hrun as [Hnames]; clear Hrun.
  set (entries := repositories (this st)) in *.
  destruct (scores_ranked q entries) as (order & Hperm & Heq & Hsorted).
  unfold Object_entries in Hnames. rewrite Hnames in Heq.
  destruct order as [| i0 order]; [discriminate Heq |].
  simpl in Heq. inversion Heq as [[Hbest Hothers]]; clear Heq.
  inversion Hsorted as [| ? ? _ Hfirst]; subst.
  assert (Hi0 : i0 < List.length entries).
  { assert (H : In i0 (seq 0 (List.length entries)))
      by (apply (Permutation_in _ Hperm); left; reflexivity).
    apply in_seq in H. lia. }
  exists (snd (nth i0 entries no_entry)). split.
  - apply get_nth; assumption.
  - intros key r Hget. apply get_In in Hget.
    destruct (In_nth _ _ no_entry Hget) as (j & Hj & Hnth).
    assert (Hin : In j (i0 :: order)).
    { apply (Permutation_in _ (Permutation_sym Hperm)). apply in_seq. lia. }
    replace r with (snd (nth j entries no_entry)) by (rewrite Hnth; reflexivity).
    destruct Hin as [<- | Hin].
    + apply Binary64.ltb_irrefl.
    + rewrite Forall_forall in Hfirst. destruct (Hfirst j Hin) as [Hlt | [Heq _]].
      * apply not_true_is_false. intros E. exact (Sorting.ltb_asym _ _ E Hlt).
      * rewrite Heq. apply Binary64.ltb_irrefl.
Qed.

Lemma findMatches_best_first_witness :
  exists r0,
    get (repositories (this loaded)) "octo/c" = Some r0
    /\ forall key r,
         get (repositories (this loaded)) key = Some r ->
         (calculateCosineSimilarity [1; 0]%float (embedding r0)
          <? calculateCosineSimilarity [1; 0]%float (embedding r))%float = false.
Proof.
  apply (findMatches_best_first quiet_world "router" loaded
           (snd (createEmbedding quiet_world "router" loaded)) [1; 0]%float
           "octo/c" ["octo/b"; "octo/d"; "octo/a"]).
  - reflexivity.
  - reflexivity.
  - repeat constructor; simpl; intuition discriminate.
Defined.

End Queries.

(** ** The dropdown after an evaluation *)

Module Dropdown.
Import JS SmartRouter Spec Trace More Examples Page PageExamples.

Local Open Scope string_scope.
Local Open Scope list_scope.

Lemma includes_In (l : list string) (x : string) : includes l x = true <-> In x l.
Proof.
  unfold includes. rewrite existsb_exists. split.
  - intros (y & Hy & E). apply String.eqb_eq in E. subst. exact Hy.
  - intros H. exists x. split; [exact H | apply String.eqb_refl].
Qed.

Lemma includes_perm (l1 l2 : list string) (x : string) :
  Permutation l1 l2 -> includes l1 x = includes l2 x.
Proof.
  intros Hp. apply eq_true_iff_eq. rewrite !includes_In. split; apply Permutation_in.
  - exact Hp.
  - symmetry. exact Hp.
Qed.

Lemma names_perm (q : list float) (entries : object RepositoryRecord) :
  Permutation (map repo (sort by_similarity (map (score q) entries))) (keys entries).
Proof.
  rewrite Sorting.sort_perm, map_map. unfold keys. reflexivity.
Qed.

Lemma select_at_values (multi : bool) (i : nat) (opts : list OptionElement) :
  map option_value (select_at multi i opts) = map option_value opts.
Proof.
  revert i. induction opts as [| o rest IH]; intros i; simpl; [reflexivity |].
  destruct i as [| i]; simpl.
  - f_equal. destruct multi; [reflexivity |]. rewrite map_map. reflexivity.
  - rewrite IH. destruct multi; reflexivity.
Qed.

Lemma select_at_displays (multi : bool) (i : nat) (opts : list OptionElement) :
  map style_display (select_at multi i opts) = map style_display opts.
Proof.
  revert i. induction opts as [| o rest IH]; intros i; simpl; [reflexivity |].
  destruct i as [| i]; simpl.
  - f_equal. destruct multi; [reflexivity |]. rewrite map_map. reflexivity.
  - rewrite IH. destruct multi; reflexivity.
Qed.

Lemma show_matches_values (matches : list string) (opts : list OptionElement) :
  map option_value (show_matches matches opts) = map option_value opts.
Proof. unfold show_matches. rewrite map_map. reflexivity. Qed.

Lemma show_matches_displays (matches : list string) (opts : list OptionElement) :
  map style_display (show_matches matches opts)
  = map (fun o => if includes matches (option_value o) then "" else "none") opts.
Proof. unfold show_matches. rewrite map_map. reflexivity. Qed.

Lemma show_matches_selected (matches : list string) (opts : list OptionElement) :
  selectedOptions (show_matches matches opts) = show_matches matches (selectedOptions opts).
Proof.
  unfold selectedOptions, show_matches.
  induction opts as [| o rest IH]; simpl; [reflexivity |].
  destruct (selected o); simpl; rewrite IH; reflexivity.
Qed.

(* The dropdown an evaluation leaves behind when its query succeeds. *)
Lemma evaluate_run (w : World) (description : string) (st : State) (sel : SelectElement) :
  evaluate w description st sel
  = match createEmbedding w description st with
    | (Throw e, st1) => (Throw e, st1, sel)
    | (Ok q, st1) =>
        let matches := map repo (sort by_similarity
                                   (map (score q) (Object_entries (repositories (this st))))) in
        let shown := show_matches matches (options sel) in
        match selectedOptions shown with
        | [] => (Throw (cannot_read "undefined" "style"), st1,
                 {| multiple := multiple sel; options := shown |})
        | first :: _ =>
            if String.eqb (style_display first) "none" then
              match find_index visible shown with
              | Some i => (Ok tt, st1,
                           {| multiple := multiple sel;
                              options := select_at (multiple sel) i shown |})
              | None => (Ok tt, st1, {| multiple := multiple sel; options := shown |})
              end
            else (Ok tt, st1, {| multiple := multiple sel; options := shown |})
        end
    end.
Proof.
  unfold evaluate. rewrite Matches.findMatches_run.
  pose proof (Matches.createEmbedding_this w description st) as Hthis.
  destruct (createEmbedding w description st) as [[q | e] st1]; [| reflexivity].
  simpl in Hthis. rewrite Hthis. reflexivity.
Qed.

(** Whatever was typed, an evaluation whose query succeeds shows exactly
    the options whose value is the key of a stored repository and hides
    the others: the ranking has no part in it. The options and their
    values stay as they are. *)
Theorem evaluate_shows_stored_repositories (w : World) (description : string)
    (st : State) (sel : SelectElement) (q : list float) :
  fst (createEmbedding w description st) = Ok q ->
  let after := snd (evaluate w description st sel) in
  map option_value (options after) = map option_value (options sel)
  /\ map style_display (options after)
     = map (fun o => if includes (keys (repositories (this st))) (option_value o)
                     then "" else "none")
           (options sel).
Proof.
  intros Hq after. subst after. rewrite evaluate_run.
  destruct (createEmbedding w description st) as [[q' | e] st1]; [| discriminate Hq].
  cbv zeta. unfold Object_entries.
  set (matches := map repo _).
  assert (Hshown : map style_display (show_matches matches (options sel))
                   = map (fun o => if includes (keys (repositories (this st))) (option_value o)
                                   then "" else "none") (options sel)).
  { rewrite show_matches_displays. apply map_ext. intros o.
    rewrite (includes_perm _ _ _ (names_perm q' (repositories (this st)))). reflexivity. }
  destruct (selectedOptions _) as [| first others]; simpl.
  - split; [apply show_matches_values | exact Hshown].
  - destruct (String.eqb (style_display first) "none"); simpl.
    + destruct (find_index visible _) as [i |]; simpl.
      * rewrite select_at_values, select_at_displays.
        split; [apply show_matches_values | exact Hshown].
      * split; [apply show_matches_values | exact Hshown].
    + split; [apply show_matches_values | exact Hshown].
Qed.

Lemma evaluate_shows_stored_repositories_witness :
  map style_display (options (snd (evaluate quiet_world "a router" loaded dropdown)))
  = ["none"; ""; ""].
Proof.
  destruct (evaluate_shows_stored_repositories quiet_world "a router" loaded dropdown
              [1; 0]%float eq_refl) as [_ H].
  exact H.
Defined.

(** An evaluation whose query succeeds ends with a [TypeError] exactly
    when no option of the dropdown is selected, an empty dropdown
    included: [selectedOptions[0]] is then [undefined]. The options are
    shown and hidden before that. *)
Theorem evaluate_needs_a_selection (w : World) (description : string)
    (st : State) (sel : SelectElement) (q : list float) :
  fst (createEmbedding w description st) = Ok q ->
  fst (fst (evaluate w description st sel))
  = match selectedOptions (options sel) with
    | [] => Throw (cannot_read "undefined" "style")
    | _ :: _ => Ok tt
    end.
Proof.
  intros Hq. rewrite evaluate_run.
  destruct (createEmbedding w description st) as [[q' | e] st1]; [| discriminate Hq].
  cbv zeta. rewrite show_matches_selected.
  destruct (selectedOptions (options sel)) as [| first others]; simpl; [reflexivity |].
  destruct (String.eqb _ "none"); [| reflexivity].
  destruct (find_index _ _); reflexivity.
Qed.

Lemma evaluate_needs_a_selection_witness :
  fst (fst (evaluate quiet_world "a router" loaded unselected))
  = Throw (TypeError "Cannot read properties of undefined (reading 'style')").
Proof.
  exact (evaluate_needs_a_selection quiet_world "a router" loaded unselected
           [1; 0]%float eq_refl).
Defined.

(** When the embeddings request of an evaluation fails, the error leaves
    the callback uncaught and the dropdown stays exactly as it was:
    nothing is shown, hidden or selected. *)
Theorem evaluate_failed_query (w : World) (description : string)
    (st : State) (sel : SelectElement) (e : exn) :
  fst (createEmbedding w description st) = Throw e ->
  fst (evaluate w description st sel) = (Throw e, snd (createEmbedding w description st))
  /\ snd (evaluate w description st sel) = sel.
Proof.
  intros He. rewrite evaluate_run.
  destruct (createEmbedding w description st) as [[q | e'] st1]; [discriminate He |].
  simpl in *. inversion He. split; reflexivity.
Qed.

Lemma evaluate_failed_query_witness :
  snd (evaluate gateway_world "a router" loaded dropdown) = dropdown.
Proof.
  destruct (evaluate_failed_query gateway_world "a router" loaded dropdown
              (SyntaxError "Unexpected token '<' is not valid JSON") eq_refl) as [_ H].
  exact H.
Defined.

Lemma find_index_first {A} (p : A -> bool) (l : list A) (i : nat) :
  find_index p l = Some i -> first_where p l i.
Proof.
  revert i. induction l as [| x l IH]; intros i; simpl; [discriminate |].
  destruct (p x) eqn:E.
  - intros H. inversion H; subst. split.
    + exists x. split; [reflexivity | exact E].
    + intros j y Hj. lia.
  - destruct (find_index p l) as [k |]; simpl; [| discriminate].
    intros H. inversion H; subst. destruct (IH k eq_refl) as [Hat Hbefore]. split.
    + exact Hat.
    + intros [| j] y Hj Hy; simpl in Hy.
      * inversion Hy; subst. exact E.
      * apply (Hbefore j y); [lia | exact Hy].
Qed.

Lemma find_index_none {A} (p : A -> bool) (l : list A) :
  find_index p l = None -> Forall (fun x => p x = false) l.
Proof.
  induction l as [| y l IH]; simpl; [constructor |].
  destruct (p y) eqn:E; [discriminate |].
  destruct (find_index p l); [discriminate |].
  intros _. constructor; [exact E | apply IH; reflexivity].
Qed.

Lemma find_index_map {A B} (f : A -> B) (p : B -> bool) (l : list A) :
  find_index p (map f l) = find_index (fun x => p (f x)) l.
Proof.
  induction l as [| x l IH]; simpl; [reflexivity |]. rewrite IH. reflexivity.
Qed.

(* The first element a filter keeps is the first one that passes. *)
Lemma filter_first {A} (p : A -> bool) (l : list A) (x : A) (others : list A) :
  filter p l = x :: others ->
  exists k, find_index p l = Some k /\ nth_error l k = Some x.
Proof.
  induction l as [| y l IH]; simpl; [discriminate |].
  destruct (p y) eqn:E.
  - intros H. inversion H; subst. exists 0%nat. split; reflexivity.
  - intros H. destruct (IH H) as (k & Hk & Hx). exists (S k). rewrite Hk. split; [reflexivity | exact Hx].
Qed.

Lemma selected_none (opts : list OptionElement) (j : nat) (o : OptionElement) :
  nth_error (map (set_selected false) opts) j = Some o -> selected o = false.
Proof.
  rewrite nth_error_map. destruct (nth_error opts j); simpl; [| discriminate].
  intros H. inversion H. reflexivity.
Qed.

Lemma select_at_single (i : nat) (opts : list OptionElement) :
  (i < List.length opts)%nat -> only_selected (select_at false i opts) i.
Proof.
  unfold only_selected. revert i. induction opts as [| x rest IH]; intros i Hi j o Hj;
    simpl in Hi; [lia |].
  destruct i as [| i]; simpl in Hj.
  - destruct j as [| j]; simpl in Hj.
    + inversion Hj. reflexivity.
    + apply selected_none in Hj. exact Hj.
  - destruct j as [| j]; simpl in Hj.
    + inversion Hj. reflexivity.
    + apply (IH i); [lia | exact Hj].
Qed.

Lemma show_matches_selection (matches : list string) (opts : list OptionElement) :
  map selected (show_matches matches opts) = map selected opts.
Proof. unfold show_matches. rewrite map_map. reflexivity. Qed.

(* Positions are told apart by the displays alone. *)
Lemma first_where_visible (l l' : list OptionElement) (i : nat) :
  map style_display l = map style_display l' ->
  first_where visible l i -> first_where visible l' i.
Proof.
  intros Hmap [(x & Hx & Hvis) Hbefore].
  assert (Hat : forall j, option_map style_display (nth_error l' j)
                          = option_map style_display (nth_error l j)).
  { intros j. rewrite <- !nth_error_map, Hmap. reflexivity. }
  split.
  - pose proof (Hat i) as H. rewrite Hx in H. simpl in H.
    destruct (nth_error l' i) as [y |]; [| discriminate H].
    exists y. split; [reflexivity |]. inversion H as [Hd].
    unfold visible in *. rewrite Hd. exact Hvis.
  - intros j y Hj Hy. pose proof (Hat j) as H. rewrite Hy in H. simpl in H.
    destruct (nth_error l j) as [z |] eqn:Hz; [| discriminate H].
    inversion H as [Hd]. unfold visible. rewrite Hd. exact (Hbefore j z Hj Hz).
Qed.

(** In a single select, an evaluation that ends well leaves the selection
    where it is when the selected option, the first in document order,
    is still visible. When that option is hidden now, the selection has
    moved to the first visible option in document order, which alone is
    selected; or no option at all is visible and the selection is left
    where it is. *)
Theorem evaluate_selection_visible (w : World) (description : string)
    (st st' : State) (sel after : SelectElement) :
  multiple sel = false ->
  evaluate w description st sel = (Ok tt, st', after) ->
  exists k current,
    first_where selected (options sel) k
    /\ nth_error (options after) k = Some current
    /\ if visible current
       then map selected (options after) = map selected (options sel)
       else (exists i, first_where visible (options after) i
                       /\ only_selected (options after) i)
            \/ (Forall (fun o => visible o = false) (options after)
                /\ map selected (options after) = map selected (options sel)).
Proof.
  intros Hsingle Hrun. rewrite evaluate_run in Hrun.
  destruct (createEmbedding w description st) as [[q | e] st1]; [| discriminate Hrun].
  cbv zeta in Hrun. set (matches := map repo _) in *.
  set (shown := show_matches matches (options sel)) in *.
  destruct (selectedOptions shown) as [| first others] eqn:Hsel; [discriminate Hrun |].
  destruct (filter_first selected shown first others Hsel) as (k & Hk & Hfirst).
  assert (Hkth : first_where selected (options sel) k).
  { apply find_index_first. unfold shown, show_matches in Hk.
    rewrite find_index_map in Hk. exact Hk. }
  exists k.
  destruct (String.eqb (style_display first) "none") eqn:Hnone.
  - destruct (find_index visible shown) as [i |] eqn:Hfind.
    + inversion Hrun; subst st1 after; clear Hrun. cbn [options multiple]. rewrite Hsingle.
      pose proof (find_index_first visible shown i Hfind) as Hvis.
      assert (Hi : (i < List.length shown)%nat).
      { destruct Hvis as [(x & Hx & _) _]. apply nth_error_Some. rewrite Hx. discriminate. }
      assert (Hcur : exists current,
                 nth_error (select_at false i shown) k = Some current
                 /\ style_display current = style_display first).
      { pose proof (f_equal (fun l => nth_error l k) (select_at_displays false i shown)) as H.
        cbv beta in H. rewrite !nth_error_map, Hfirst in H. simpl in H.
        destruct (nth_error (select_at false i shown) k) as [c |]; [| discriminate H].
        exists c. split; [reflexivity |]. inversion H. reflexivity. }
      destruct Hcur as (current & Hcur & Hd). exists current.
      split; [exact Hkth | split; [exact Hcur |]].
      unfold visible at 1. rewrite Hd, Hnone. simpl. left. exists i. split.
      * apply (first_where_visible shown); [| exact Hvis].
        symmetry. apply select_at_displays.
      * apply select_at_single. exact Hi.
    + inversion Hrun; subst st1 after; clear Hrun. cbn [options]. exists first.
      split; [exact Hkth | split; [exact Hfirst |]].
      unfold visible at 1. rewrite Hnone. simpl. right. split.
      * apply find_index_none. exact Hfind.
      * apply show_matches_selection.
  - inversion Hrun; subst st1 after; clear Hrun. cbn [options]. exists first.
    split; [exact Hkth | split; [exact Hfirst |]].
    unfold visible. rewrite Hnone. simpl. apply show_matches_selection.
Qed.

(** The selected option names no stored repository: it is hidden, and the
    selection moves to the second option, the first visible one. *)
Lemma evaluate_selection_visible_witness :
  exists k current,
    first_where selected (options dropdown) k
    /\ nth_error (options (snd (evaluate quiet_world "a router" loaded dropdown))) k
       = Some current
    /\ if visible current
       then map selected (options (snd (evaluate quiet_world "a router" loaded dropdown)))
            = map selected (options dropdown)
       else (exists i,
               first_where visible
                 (options (snd (evaluate quiet_world "a router" loaded dropdown))) i
               /\ only_selected
                    (options (snd (evaluate quiet_world "a router" loaded dropdown))) i)
            \/ (Forall (fun o => visible o = false)
                  (options (snd (evaluate quiet_world "a router" loaded dropdown)))
                /\ map selected (options (snd (evaluate quiet_world "a router" loaded dropdown)))
                   = map selected (options dropdown)).
Proof.
  apply (evaluate_selection_visible quiet_world "a router" loaded
           (snd (fst (evaluate quiet_world "a router" loaded dropdown))) dropdown
           (snd (evaluate quiet_world "a router" loaded dropdown))).
  - reflexivity.
  - reflexivity.
Defined.

End Dropdown.

(** ** The debounce *)

Module Debounce.
Import JS SmartRouter Page.

Local Open Scope string_scope.
Local Open Scope list_scope.
Local Open Scope Z_scope.

Lemma since_input_cons (e : Step) (rest : list Step) (last : option (string * Z)) :
  since_input (e :: rest) last = since_input rest (after_step e last).
Proof. destruct e; reflexivity. Qed.

Lemma since_input_app (steps more : list Step) (last : option (string * Z)) :
  since_input (steps ++ more) last = since_input more (since_input steps last).
Proof.
  revert last. induction steps as [| e steps IH]; intros last; [reflexivity |].
  simpl app. rewrite !since_input_cons. apply IH.
Qed.

Lemma invariant_bound : invariant bound None.
Proof.
  unfold invariant, bound. simpl. repeat split; try lia; try tauto; discriminate.
Qed.

Lemma cleared_own (s : Listener) (last : option (string * Z)) :
  invariant s last -> clearTimeout (debounceTimer s) (pending s) = [].
Proof.
  intros (Hlen & Hown & _ & _).
  destruct (pending s) as [| t [| t' rest]] eqn:E; simpl in Hlen; try lia.
  - destruct (debounceTimer s); reflexivity.
  - destruct (Hown t (or_introl eq_refl)) as [-> _]. simpl.
    rewrite Nat.eqb_refl. reflexivity.
Qed.

Lemma invariant_step (s s' : Listener) (e : Step) (last : option (string * Z)) :
  invariant s last -> step s e = Some s' -> invariant s' (after_step e last).
Proof.
  intros Hinv Hstep. pose proof (cleared_own s last Hinv) as Hclear.
  destruct Hinv as (Hlen & Hown & Hvalue & Hfresh).
  destruct e as [value | ms | id]; simpl in Hstep.
  - inversion Hstep; subst; clear Hstep. unfold invariant. simpl. rewrite Hclear. simpl.
    split; [lia | split; [| split]].
    + intros t [<- | []]. simpl. split; [reflexivity |].
      exists value, 0. split; [reflexivity | lia].
    + intros v w H. inversion H. reflexivity.
    + intros id H. inversion H. lia.
  - destruct (0 <=? ms) eqn:Hms; [| discriminate Hstep].
    inversion Hstep; subst; clear Hstep. unfold invariant. simpl.
    split; [exact Hlen | split; [| split; [| exact Hfresh]]].
    + intros t Hin. destruct (Hown t Hin) as (Hid & v & w & -> & Hdue).
      split; [exact Hid |]. exists v, (w + ms). split; [reflexivity | lia].
    + intros v w H. destruct last as [[v0 w0] |]; [| discriminate H].
      simpl in H. inversion H; subst. exact (Hvalue v w0 eq_refl).
  - destruct (find _ (pending s)) as [t |] eqn:Hfind; [| discriminate Hstep].
    destruct (due t <=? clock s); [| discriminate Hstep].
    inversion Hstep; subst; clear Hstep. unfold invariant. simpl.
    assert (Hsub : forall t', In t' (filter (fun t0 => negb (timer_id t0 =? id)%nat) (pending s)) ->
                              In t' (pending s)).
    { intros t' H. apply filter_In in H. tauto. }
    split; [| split; [| split; [exact Hvalue | exact Hfresh]]].
    + etransitivity; [apply filter_length_le | exact Hlen].
    + intros t' Hin. apply Hown, Hsub, Hin.
Qed.

Lemma invariant_run (steps : list Step) (s s' : Listener) (last : option (string * Z)) :
  invariant s last -> run s steps = Some s' -> invariant s' (since_input steps last).
Proof.
  revert s last. induction steps as [| e steps IH]; intros s last Hinv Hrun.
  - inversion Hrun; subst. exact Hinv.
  - simpl in Hrun. destruct (step s e) as [s1 |] eqn:Hstep; [| discriminate Hrun].
    rewrite since_input_cons. apply (IH s1); [| exact Hrun].
    exact (invariant_step s s1 e last Hinv Hstep).
Qed.

(** However the user types and waits, the listener has at most one timer
    pending: each input clears the timer of the one before it. *)
Theorem debounce_one_pending_timer (steps : list Step) (s : Listener) :
  run bound steps = Some s -> (List.length (pending s) <= 1)%nat.
Proof.
  intros Hrun. exact (proj1 (invariant_run steps bound s None invariant_bound Hrun)).
Qed.

Lemma debounce_one_pending_timer_witness :
  (List.length
     (pending {| clock := 100; field_value := "rout"; pending := [{| timer_id := 2; due := 400 |}];
                 next_timer := 3; debounceTimer := Some 2%nat; started := [] |}) <= 1)%nat.
Proof.
  apply (debounce_one_pending_timer [Input "r"; Wait 100; Input "rout"]).
  reflexivity.
Defined.

(** An evaluation starts only when 300 ms have passed without an input,
    and it evaluates the text of that last input. *)
Theorem debounce_quiet_period (steps : list Step) (s s' : Listener) (id : nat) :
  run bound steps = Some s ->
  step s (Fire id) = Some s' ->
  exists value waited,
    since_input steps None = Some (value, waited)
    /\ delay <= waited
    /\ started s' = (started s ++ [value])%list.
Proof.
  intros Hrun Hfire.
  destruct (invariant_run steps bound s None invariant_bound Hrun) as (_ & Hown & Hvalue & _).
  simpl in Hfire.
  destruct (find _ (pending s)) as [t |] eqn:Hfind; [| discriminate Hfire].
  destruct (due t <=? clock s) eqn:Hdue; [| discriminate Hfire].
  inversion Hfire; subst; clear Hfire. simpl.
  apply find_some in Hfind as [Hin _].
  destruct (Hown t Hin) as (_ & value & waited & Hlast & Ht).
  exists value, waited. split; [exact Hlast | split].
  - apply Z.leb_le in Hdue. lia.
  - rewrite (Hvalue value waited Hlast). reflexivity.
Qed.

Lemma debounce_quiet_period_witness :
  exists value waited,
    since_input [Input "r"; Wait 100; Input "rout"; Wait 350] None = Some (value, waited)
    /\ delay <= waited
    /\ started {| clock := 450; field_value := "rout"; pending := [];
                  next_timer := 3; debounceTimer := Some 2%nat; started := ["rout"] |}
       = ([] ++ [value])%list.
Proof.
  apply (debounce_quiet_period [Input "r"; Wait 100; Input "rout"; Wait 350]
           {| clock := 450; field_value := "rout"; pending := [{| timer_id := 2; due := 400 |}];
              next_timer := 3; debounceTimer := Some 2%nat; started := [] |}
           _ 2%nat).
  - reflexivity.
  - reflexivity.
Defined.

(** After any history, an input followed by 300 ms or more without
    another one does set off its evaluation: the timer it created can
    fire, the text of that input is evaluated, and no timer is left. *)
Theorem debounce_fires_after_quiet_period (steps : list Step) (s : Listener)
    (value : string) (ms : Z) :
  run bound steps = Some s ->
  delay <= ms ->
  exists s',
    run s [Input value; Wait ms; Fire (next_timer s)] = Some s'
    /\ started s' = (started s ++ [value])%list
    /\ pending s' = [].
Proof.
  intros Hrun Hms.
  pose proof (invariant_run steps bound s None invariant_bound Hrun) as Hinv.
  pose proof (cleared_own s _ Hinv) as Hclear.
  unfold run, step. rewrite Hclear. cbn [clock field_value pending next_timer debounceTimer started app].
  destruct (0 <=? ms) eqn:H0; [| apply Z.leb_gt in H0; unfold delay in Hms; lia].
  cbn [clock field_value pending next_timer debounceTimer started find timer_id due].
  rewrite Nat.eqb_refl. cbn [due].
  destruct (clock s + delay <=? clock s + ms) eqn:Hdue; [| apply Z.leb_gt in Hdue; lia].
  eexists. split; [reflexivity |].
  cbn [clock field_value pending next_timer debounceTimer started clearTimeout filter timer_id].
  rewrite Nat.eqb_refl. split; reflexivity.
Qed.

Lemma debounce_fires_after_quiet_period_witness :
  exists s',
    run {| clock := 100; field_value := "r"; pending := [{| timer_id := 1; due := 300 |}];
           next_timer := 2; debounceTimer := Some 1%nat; started := [] |}
        [Input "rout"; Wait 350; Fire 2] = Some s'
    /\ started s' = ([] ++ ["rout"])%list
    /\ pending s' = [].
Proof.
  apply (debounce_fires_after_quiet_period [Input "r"; Wait 100]
           {| clock := 100; field_value := "r"; pending := [{| timer_id := 1; due := 300 |}];
              next_timer := 2; debounceTimer := Some 1%nat; started := [] |}
           "rout" 350).
  - reflexivity.
  - unfold delay. lia.
Defined.

End Debounce.

(** ** Page load *)

Module PageLoad.
Import JS SmartRouter Spec Trace More Examples.

Local Open Scope string_scope.
Local Open Scope list_scope.

(** The page-load handler hands a router to the form only when both
    credentials are set to a non-empty string and every request of the
    initialization succeeded; the router then holds what the assignments
    of the run stored. Otherwise the last thing logged is the handler's
    own report: for the configuration error, when a credential is unset
    or empty and before any request, or for the error of the first
    request that failed. *)
Theorem page_load_outcome (w : World) (history : list Event) :
  exists evs,
    snd (onDOMContentLoaded w history) = history ++ evs
    /\ match fst (onDOMContentLoaded w history) with
       | Some router =>
           (exists token key,
              process_env w "GITHUB_TOKEN" = Some token /\ token <> ""
              /\ process_env w "VOYAGE_API_KEY" = Some key /\ key <> "")
           /\ all_succeed w history evs
           /\ repositories router = replay evs []
       | None =>
           exists e older,
             evs = older ++ [ConsoleError "Failed to initialize SmartRouter:" e]
             /\ ((e = configuration_error /\ older = []
                  /\ (process_env w "GITHUB_TOKEN" = None
                      \/ process_env w "GITHUB_TOKEN" = Some ""
                      \/ process_env w "VOYAGE_API_KEY" = None
                      \/ process_env w "VOYAGE_API_KEY" = Some ""))
                 \/ exists pre c logs,
                      older = pre ++ Request c :: logs
                      /\ all_succeed w history pre
                      /\ failure w (history ++ pre) c = Some e
                      /\ Forall is_console logs)
       end.
Proof.
  unfold onDOMContentLoaded, constructor.
  destruct (missing (process_env w "GITHUB_TOKEN")
            || missing (process_env w "VOYAGE_API_KEY")) eqn:Hmissing.
  - exists [ConsoleError "Failed to initialize SmartRouter:" configuration_error].
    simpl. split; [reflexivity |]. exists configuration_error, []. split; [reflexivity |].
    left. split; [reflexivity | split; [reflexivity |]].
    apply orb_true_iff in Hmissing. unfold missing in Hmissing.
    destruct (process_env w "GITHUB_TOKEN") as [token |]; [| tauto].
    destruct (process_env w "VOYAGE_API_KEY") as [key |]; [| tauto].
    destruct Hmissing as [H | H]; apply String.eqb_eq in H; subst; tauto.
  - assert (Hset : exists token key,
               process_env w "GITHUB_TOKEN" = Some token /\ token <> ""
               /\ process_env w "VOYAGE_API_KEY" = Some key /\ key <> "").
    { apply orb_false_iff in Hmissing as [Ht Hk]. unfold missing in Ht, Hk.
      destruct (process_env w "GITHUB_TOKEN") as [token |]; [| discriminate Ht].
      destruct (process_env w "VOYAGE_API_KEY") as [key |]; [| discriminate Hk].
      apply String.eqb_neq in Ht, Hk. exists token, key. auto. }
    set (st := {| this := _; events := history |}).
    destruct (initialize w st) as [[[] | e] st'] eqn:Hrun;
      destruct (Runs.run_initialize w st _ st' Hrun) as (evs & Hev & _ & _ & Hrepos & Hend);
      simpl in Hev, Hrepos, Hend.
    + exists evs. simpl. split; [exact Hev |].
      split; [exact Hset | split; [exact Hend | exact Hrepos]].
    + exists (evs ++ [ConsoleError "Failed to initialize SmartRouter:" e]). simpl.
      split; [rewrite Hev, app_assoc; reflexivity |].
      exists e, evs. split; [reflexivity |]. right. exact Hend.
Qed.

End PageLoad.
